(** * Tic-tac-toe with move history: the reducer of the [useReducer] exercise

    A shallow embedding of the game logic of the exercises

    - [src/exercises/09.classes.js]: the hooks [Board] with its
      [selectSquare], and the [useReducer] game with [boardReducer],
      [calculateWinner] and the initial state of [Game];
    - the "Advanced State" exercise: [Board.selectSquare] and the same
      [calculateWinner].

    JavaScript numbers that the code uses as integers (step numbers, cell
    indices) are modelled by [Z]; the two agree on the safe integers, and the
    only arithmetic the code performs on them is [stepNumber + 1] and
    [stepNumber % 2]. *)

From stdpp Require Import base numbers option list strings pretty gmap.

(** ** Values held in the cells of a board *)

(** A cell holds [null] (the initial fill), [undefined] (what a read of a
    missing key or of a hole gives) or a string (['X'], ['O']). *)
Inductive value : Set :=
  | Null
  | Undefined
  | Str (s : string).

#[global] Instance value_eq_dec : EqDecision value.
Proof. solve_decision. Defined.

(** [ToBoolean]: [null], [undefined] and the empty string are falsy. *)
Definition truthy (v : value) : bool :=
  match v with
  | Null | Undefined => false
  | Str s => negb (String.eqb s "")%string
  end.

(** [a === b] on these values. *)
Definition strict_eq (a b : value) : bool := bool_decide (a = b).

(** [a || b] returns one of its operands. *)
Definition js_or (a b : value) : value := if truthy a then a else b.

(** ** Arrays of cells *)

(** An array has its indexed elements and, like every object, may carry
    properties under keys that are not array indices ([squares[-1] = 'X']
    stores one).  A hole reads as [undefined], and nothing here tells the two
    apart, so holes are stored as [Undefined]. *)
Record jsarray : Type := {
  elems : list value;
  props : gmap Z value;
}.

(** An integer key is an array index when it lies in [0, 2^32 - 2]. *)
Definition is_array_index (k : Z) : bool := bool_decide (0 ≤ k < 2 ^ 32 - 1)%Z.

(** [a[k]] *)
Definition arr_get (a : jsarray) (k : Z) : value :=
  if is_array_index k then default Undefined (elems a !! Z.to_nat k)
  else default Undefined (props a !! k).

(** [a[k] = v]: in range the element is overwritten; past the end the array
    grows to length [k + 1], the gap being holes; a key that is no index
    becomes an ordinary property. *)
Definition arr_set (a : jsarray) (k : Z) (v : value) : jsarray :=
  if is_array_index k then
    let i := Z.to_nat k in
    if decide (i < length (elems a)) then
      {| elems := <[i := v]> (elems a); props := props a |}
    else
      {| elems := elems a ++ replicate (i - length (elems a)) Undefined ++ [v];
         props := props a |}
  else {| elems := elems a; props := <[k := v]> (props a) |}.

(** [[...a]]: a fresh array of the indexed elements only. *)
Definition spread (a : jsarray) : jsarray := {| elems := elems a; props := ∅ |}.

(** [Array(n).fill(v)] *)
Definition Array_fill (n : nat) (v : value) : jsarray :=
  {| elems := replicate n v; props := ∅ |}.

(** [l.slice(0, e)] on a list of length [len]: a negative [e] counts from the
    end, and the bound is clamped to [0, len]. *)
Definition slice0 {A} (l : list A) (e : Z) : list A :=
  let len := Z.of_nat (length l) in
  let final := if (e <? 0)%Z then Z.max (len + e) 0 else Z.min e len in
  take (Z.to_nat final) l.

(** ** [calculateWinner] *)

(** What [calculateWinner] is applied to: the exercises call it on the array
    of squares and, in one place, on a cell index.  Reading a property of a
    number gives [undefined]. *)
Inductive operand : Type :=
  | Squares (a : jsarray)
  | Num (n : Z).

Coercion Squares : jsarray >-> operand.

Definition get (o : operand) (k : Z) : value :=
  match o with
  | Squares a => arr_get a k
  | Num _ => Undefined
  end.

Definition lines : list (Z * Z * Z) :=
  [ (0, 1, 2); (3, 4, 5); (6, 7, 8);
    (0, 3, 6); (1, 4, 7); (2, 5, 8);
    (0, 4, 8); (2, 4, 6) ]%Z.

(** The test of the loop body:
    [squares[a] && squares[a] === squares[b] && squares[a] === squares[c]]. *)
Definition line_test (squares : operand) (l : Z * Z * Z) : bool :=
  let '(a, b, c) := l in
  truthy (get squares a)
  && strict_eq (get squares a) (get squares b)
  && strict_eq (get squares a) (get squares c).

(** The [for] loop over the remaining lines. *)
Fixpoint calculateWinner_loop (squares : operand) (ls : list (Z * Z * Z)) : value :=
  match ls with
  | [] => Null
  | l :: rest =>
      if line_test squares l then get squares (l.1.1)
      else calculateWinner_loop squares rest
  end.

Definition calculateWinner (squares : operand) : value :=
  calculateWinner_loop squares lines.

(** [xIsNext ? 'X' : 'O'] *)
Definition mark (xIsNext : bool) : value := if xIsNext then Str "X"%string else Str "O"%string.

(** ** The reducer of the [useReducer] game *)

Record snapshot : Type := { squares : jsarray }.

Record state : Type := {
  history : list snapshot;
  stepNumber : Z;
}.

Module action.
Record t : Type := {
  type : string;
  stepNumber : Z;
  square : Z;
}.
End action.

Definition SET_STEPNUMBER (stepNumber : Z) : action.t :=
  {| action.type := "SET_STEPNUMBER"%string; action.stepNumber := stepNumber; action.square := 0 |}.

Definition SELECT_SQUARE (square : Z) : action.t :=
  {| action.type := "SELECT_SQUARE"%string; action.stepNumber := 0; action.square := square |}.

Inductive exn : Set :=
  | Error (message : string)
  | TypeError.

(** How a call of the reducer ends: [return e], a bare [return], or [throw]. *)
Inductive result : Type :=
  | Return (s : state)
  | ReturnUndefined
  | Throw (e : exn).

(** [state.stepNumber % 2 === 0]; [%] truncates towards zero, as [Z.rem].
    In the reducer below [stepNumber + 1] is the sum in [Z], which is the
    sum of the code for every cursor below 2^53, and so for every cursor that
    is the index of an entry. *)
Definition xIsNext (st : state) : bool := (Z.rem (stepNumber st) 2 =? 0)%Z.

Definition boardReducer (st : state) (a : action.t) : result :=
  let xIsNext := xIsNext st in
  if String.eqb (action.type a) "SET_STEPNUMBER"%string then
    Return {| history := history st; stepNumber := action.stepNumber a |}
  else if String.eqb (action.type a) "SELECT_SQUARE"%string then
    let newHistory := slice0 (history st) (stepNumber st + 1) in
    match last newHistory with
    | None => Throw TypeError
    | Some current =>
        let squares0 := spread (squares current) in
        if truthy (js_or (calculateWinner squares0) (arr_get squares0 (action.square a)))
        then ReturnUndefined
        else
          let squares1 := arr_set squares0 (action.square a) (mark xIsNext) in
          Return {| history := newHistory ++ [ {| squares := squares1 |} ];
                    stepNumber := stepNumber st + 1 |}
    end
  else Throw (Error ("Unexpection action: " ++ action.type a)%string).

(** The state [Game] hands to [React.useReducer]. *)
Definition initialState : state :=
  {| history := [ {| squares := Array_fill 9 Null |} ]; stepNumber := 0 |}.

(** A run of [SELECT_SQUARE] dispatches in which every one returned a state
    (React keeps what the reducer returns as the next state). *)
Fixpoint play (st : state) (moves : list Z) : option state :=
  match moves with
  | [] => Some st
  | square :: rest =>
      match boardReducer st (SELECT_SQUARE square) with
      | Return st' => play st' rest
      | _ => None
      end
  end.

(** ** The boards that keep their state in [useState] *)

(** The state of a [Board]: what the two [useState] hooks hold. *)
Record board : Type := {
  board_squares : jsarray;
  board_xIsNext : bool;
}.

(** "Refactor to hooks" ([09.classes.js], first part): the value is the state
    after the handler ran, the early [return] leaving both hooks alone. *)
Module Hooks.
Definition selectSquare (b : board) (square : Z) : board :=
  let squares := board_squares b in
  if truthy (js_or (calculateWinner squares) (arr_get squares square)) then b
  else
    let squaresCopy := arr_set (spread squares) square (mark (board_xIsNext b)) in
    {| board_squares := squaresCopy; board_xIsNext := negb (board_xIsNext b) |}.
End Hooks.

(** "Advanced State": the guard calls [calculateWinner(square)], on the
    index. *)
Module AdvancedState.
Definition selectSquare (b : board) (square : Z) : board :=
  let squares := board_squares b in
  if truthy (js_or (calculateWinner (Num square)) (arr_get squares square)) then b
  else
    let squaresCopy := arr_set (spread squares) square (mark (board_xIsNext b)) in
    {| board_squares := squaresCopy; board_xIsNext := negb (board_xIsNext b) |}.
End AdvancedState.

(** ** The same code over a store of shared objects *)

(** The reducer is handed references: [state.history] is an array of
    references to [{squares}] objects, each of which refers to an array of
    cells, and a state built by [{...state, stepNumber}] shares its history
    with the old one.  This model keeps the objects in a store, so that which
    ones a call writes to can be stated.  A location is an index into the
    store; allocation appends, and nothing is ever freed. *)
Module Heap.

Abbreviation loc := nat.

Inductive object : Type :=
  | Cells (a : jsarray)            (* an array of squares *)
  | Snapshot (squares : loc)       (* [{squares}] *)
  | Entries (l : list loc).        (* an array of [{squares}] objects *)

Abbreviation heap := (list object).

Record state : Type := {
  history : loc;
  stepNumber : Z;
}.

(** A completed call returns a state or nothing. *)
Inductive returned : Type :=
  | Return (s : state)
  | ReturnUndefined.

Inductive outcome (A : Type) : Type :=
  | Val (x : A)
  | Exn (e : exn).
Arguments Val {A} x.
Arguments Exn {A} e.

(** Computations that read and write the store and may throw. *)
Definition M (A : Type) : Type := heap → outcome A * heap.

Definition ret {A} (x : A) : M A := λ h, (Val x, h).

Definition bind {A B} (m : M A) (k : A → M B) : M B :=
  λ h, match m h with
       | (Val x, h') => k x h'
       | (Exn e, h') => (Exn e, h')
       end.

Definition throw {A} (e : exn) : M A := λ h, (Exn e, h).

Notation "x <- m ;; k" := (bind m (λ x, k))
  (at level 100, m at next level, right associativity).

(** A new object gets the next free location. *)
Definition alloc (o : object) : M loc := λ h, (Val (length h), h ++ [o]).

(** Overwrite the object at [l]. *)
Definition store (l : loc) (o : object) : M unit := λ h, (Val tt, <[l := o]> h).

(** Reads.  The store is meant to be well typed (a history refers to
    snapshots, a snapshot to cells); a read that finds something else is a
    [TypeError]. *)
Definition load_cells (l : loc) : M jsarray :=
  λ h, match h !! l with
       | Some (Cells a) => (Val a, h)
       | _ => (Exn TypeError, h)
       end.

Definition load_squares (l : loc) : M loc :=
  λ h, match h !! l with
       | Some (Snapshot s) => (Val s, h)
       | _ => (Exn TypeError, h)
       end.

Definition load_entries (l : loc) : M (list loc) :=
  λ h, match h !! l with
       | Some (Entries e) => (Val e, h)
       | _ => (Exn TypeError, h)
       end.

Definition boardReducer (st : state) (a : action.t) : M returned :=
  let xIsNext := (Z.rem (stepNumber st) 2 =? 0)%Z in
  if String.eqb (action.type a) "SET_STEPNUMBER"%string then
    ret (Return {| history := history st; stepNumber := action.stepNumber a |})
  else if String.eqb (action.type a) "SELECT_SQUARE"%string then
    old <- load_entries (history st);;
    newHistory <- alloc (Entries (slice0 old (stepNumber st + 1)));;
    kept <- load_entries newHistory;;
    match last kept with
    | None => throw TypeError
    | Some current =>
        current_squares <- load_squares current;;
        cells <- load_cells current_squares;;
        squares <- alloc (Cells (spread cells));;
        copy <- load_cells squares;;
        if truthy (js_or (calculateWinner copy) (arr_get copy (action.square a)))
        then ret ReturnUndefined
        else
          _ <- store squares (Cells (arr_set copy (action.square a) (mark xIsNext)));;
          entry <- alloc (Snapshot squares);;
          history <- alloc (Entries (kept ++ [entry]));;
          ret (Return {| history := history; stepNumber := stepNumber st + 1 |})
    end
  else throw (Error ("Unexpection action: " ++ action.type a)%string).

(** The [useState] boards hold a reference to their array of squares. *)
Record board : Type := {
  board_squares : loc;
  board_xIsNext : bool;
}.

(** "Advanced State": [selectSquare], giving the state after the handler. *)
Definition selectSquare (b : board) (square : Z) : M board :=
  cells <- load_cells (board_squares b);;
  if truthy (js_or (calculateWinner (Num square)) (arr_get cells square))
  then ret b
  else
    squaresCopy <- alloc (Cells (spread cells));;
    copy <- load_cells squaresCopy;;
    _ <- store squaresCopy (Cells (arr_set copy square (mark (board_xIsNext b))));;
    ret {| board_squares := squaresCopy; board_xIsNext := negb (board_xIsNext b) |}.

End Heap.

(** What a store holds at a reference, read back as the values of the first
    model. *)
Definition cells_at (h : Heap.heap) (l : Heap.loc) : option jsarray :=
  match h !! l with Some (Heap.Cells a) => Some a | _ => None end.

Definition snapshot_at (h : Heap.heap) (l : Heap.loc) : option snapshot :=
  match h !! l with
  | Some (Heap.Snapshot s) => a ← cells_at h s; Some {| squares := a |}
  | _ => None
  end.

Definition history_at (h : Heap.heap) (l : Heap.loc) : option (list snapshot) :=
  match h !! l with
  | Some (Heap.Entries e) => mapM (snapshot_at h) e
  | _ => None
  end.

Definition state_at (h : Heap.heap) (st : Heap.state) : option state :=
  hist ← history_at h (Heap.history st);
  Some {| history := hist; stepNumber := Heap.stepNumber st |}.

Definition board_at (h : Heap.heap) (b : Heap.board) : option board :=
  a ← cells_at h (Heap.board_squares b);
  Some {| board_squares := a; board_xIsNext := Heap.board_xIsNext b |}.

(** ** Notions used in the statements *)

(** The lines of a 3 x 3 board numbered row by row. *)
Definition rows : list (Z * Z * Z) :=
  (λ r, (3 * r, 3 * r + 1, 3 * r + 2)%Z) <$> [0; 1; 2]%Z.
Definition columns : list (Z * Z * Z) :=
  (λ c, (c, c + 3, c + 6)%Z) <$> [0; 1; 2]%Z.
Definition diagonals : list (Z * Z * Z) := [ (0, 4, 8); (2, 4, 6) ]%Z.

(** The three cells of line [l] hold the same non-empty mark [m]. *)
Definition three_in_line (squares : operand) (l : Z * Z * Z) (m : value) : Prop :=
  truthy m = true ∧
  get squares l.1.1 = m ∧ get squares l.1.2 = m ∧ get squares l.2 = m.

(** [l] is the first line, in the order of [lines], that holds three equal
    marks [m]. *)
Definition first_line (squares : operand) (l : Z * Z * Z) (m : value) : Prop :=
  ∃ before after,
    lines = before ++ l :: after ∧
    three_in_line squares l m ∧
    ∀ l' m', l' ∈ before → ¬ three_in_line squares l' m'.

(** The cursor designates an entry of the history. *)
Definition cursor_in_range (st : state) : Prop :=
  (0 ≤ stepNumber st < Z.of_nat (length (history st)))%Z.

(** The guard of [SELECT_SQUARE], on the copy of the current squares:
    [calculateWinner(squares) || squares[action.square]]. *)
Definition guard (current : snapshot) (square : Z) : bool :=
  let squares0 := spread (squares current) in
  truthy (js_or (calculateWinner squares0) (arr_get squares0 square)).

(** The snapshot a passing move appends. *)
Definition next_snapshot (st : state) (current : snapshot) (square : Z) : snapshot :=
  {| squares := arr_set (spread (squares current)) square (mark (xIsNext st)) |}.

(** The states the [Game] component can be in: it starts from
    [initialState]; a click on a square dispatches [SELECT_SQUARE]; the
    buttons of the move list, one per entry of the history, dispatch
    [SET_STEPNUMBER] with the index of their entry. *)
Inductive reachable : state → Prop :=
  | reachable_initial : reachable initialState
  | reachable_select st square st' :
      reachable st →
      boardReducer st (SELECT_SQUARE square) = Return st' →
      reachable st'
  | reachable_jump st (i : nat) st' :
      reachable st →
      i < length (history st) →
      boardReducer st (SET_STEPNUMBER (Z.of_nat i)) = Return st' →
      reachable st'.

(** The cell of index [k] holds a mark. *)
Definition occupied (a : jsarray) (k : Z) : bool :=
  is_array_index k && truthy (arr_get a k).

(** Every object of [h] is still there, unchanged, in [h']. *)
Definition preserved (h h' : Heap.heap) : Prop :=
  ∀ l o, h !! l = Some o → h' !! l = Some o.

(** ** Boards and states used as examples *)

Definition markX : value := Str "X"%string.
Definition markO : value := Str "O"%string.

(** A board given by its nine cells. *)
Definition board_of (cells : list value) : snapshot :=
  {| squares := {| elems := cells; props := ∅ |} |}.

(** X took the top row: the moves 0, 4, 1, 8, 2 from the empty board. *)
Definition top_row_game : list snapshot :=
  [ board_of [Null; Null; Null; Null; Null; Null; Null; Null; Null];
    board_of [markX; Null; Null; Null; Null; Null; Null; Null; Null];
    board_of [markX; Null; Null; Null; markO; Null; Null; Null; Null];
    board_of [markX; markX; Null; Null; markO; Null; Null; Null; Null];
    board_of [markX; markX; Null; Null; markO; Null; Null; Null; markO];
    board_of [markX; markX; markX; Null; markO; Null; Null; Null; markO] ].

(** The board after the moves 3, 1, 4, 2, 5: X holds the middle row, O is
    next. *)
Definition decided_board : board :=
  {| board_squares :=
       {| elems := [Null; markO; markO; markX; markX; markX; Null; Null; Null];
          props := ∅ |};
     board_xIsNext := false |}.

(** A store with the game after X took cell 0: the two boards, their
    snapshots, and the history. *)
Definition example_store : Heap.heap :=
  [ Heap.Cells (squares (board_of [Null; Null; Null; Null; Null; Null; Null; Null; Null]));
    Heap.Snapshot 0;
    Heap.Cells (squares (board_of [markX; Null; Null; Null; Null; Null; Null; Null; Null]));
    Heap.Snapshot 2;
    Heap.Entries [1; 3] ].

(** ** What the components render *)

(** [`${v}`] *)
Definition template (v : value) : string :=
  match v with
  | Null => "null"
  | Undefined => "undefined"
  | Str s => s
  end.

(** [a.every(p)].  [every] skips holes, which this model stores as
    [Undefined]: the definition is exact on arrays without holes, and it is
    used below only on boards that have none. *)
Definition every (p : value → bool) (a : jsarray) : bool := forallb p (elems a).

(** How an evaluation ends: with a value, or with a thrown exception. *)
Inductive completion (A : Type) : Type :=
  | Normal (x : A)
  | Abrupt (e : exn).
Arguments Normal {A} x.
Arguments Abrupt {A} e.

(** A rendered button: what it shows, and what a click on it passes on. *)
Record button (A : Type) : Type := {
  shows : value;
  onClick : A;
}.
Arguments shows {A} b.
Arguments onClick {A} b.

(** The nine [renderSquare(i)] of a board, in rows: each shows [squares[i]]
    and passes [i] on. *)
Definition renderSquare (squares : jsarray) (i : Z) : button Z :=
  {| shows := arr_get squares i; onClick := i |}.

Definition board_rows (squares : jsarray) : list (list (button Z)) :=
  [ renderSquare squares <$> [0; 1; 2]%Z;
    renderSquare squares <$> [3; 4; 5]%Z;
    renderSquare squares <$> [6; 7; 8]%Z ].

(** "Refactor to hooks": the status line of the [Board] and its buttons,
    whose clicks go to [selectSquare]. *)
Module HooksBoard.

Definition status (b : board) : string :=
  let winner := calculateWinner (board_squares b) in
  if truthy winner then ("Winner: " ++ template winner)%string
  else if every truthy (board_squares b) then "Scratch: Cat's game"%string
  else ("Next player: " ++ (if board_xIsNext b then "X" else "O"))%string.

Definition clicks (b : board) : list Z :=
  onClick <$> concat (board_rows (board_squares b)).

(** The boards that clicks on the rendered buttons lead to. *)
Inductive reached : board → Prop :=
  | reached_initial :
      reached {| board_squares := Array_fill 9 Null; board_xIsNext := true |}
  | reached_click b square :
      reached b → square ∈ clicks b → reached (Hooks.selectSquare b square).

End HooksBoard.

(** "Advanced State": [renderStatus], whose [status] starts out [undefined]
    ([None]) and is assigned up to three times, and the buttons that the two [map]s
    over [rows] and [cols] render: the one of [row] and [col] shows
    [squares[row * col]] and passes [row + col] to [selectSquare]. *)
Module AdvancedBoard.

Definition renderStatus (b : board) : option string :=
  let squares := board_squares b in
  let winner := calculateWinner squares in
  let status : option string := None in
  let status :=
    if truthy winner then Some ("Winner: " ++ template winner)%string else status in
  let status :=
    if negb (truthy winner) && every (λ tile, negb (strict_eq tile Null)) squares
    then Some "Scratch: Cat's game"%string else status in
  let status := Some ("Next player: " ++ (if board_xIsNext b then "X" else "O"))%string in
  status.

Definition rows : list Z := [1; 2; 3]%Z.
Definition cols : list Z := [0; 2; 5]%Z.

Definition board_rows (squares : jsarray) : list (list (button Z)) :=
  (λ row, (λ col, {| shows := arr_get squares (row * col); onClick := (row + col)%Z |})
            <$> cols) <$> rows.

Definition clicks (b : board) : list Z :=
  onClick <$> concat (board_rows (board_squares b)).

Inductive reached : board → Prop :=
  | reached_initial :
      reached {| board_squares := Array_fill 9 Null; board_xIsNext := true |}
  | reached_click b square :
      reached b → square ∈ clicks b → reached (AdvancedState.selectSquare b square).

End AdvancedBoard.

(** The [Game] of the [useReducer] exercise: what a render derives from the
    state, and the actions its buttons dispatch. *)
Module Game.

(** [history[stepNumber]]: [undefined] unless the cursor is the index of an
    entry. *)
Definition current (st : state) : option snapshot :=
  if is_array_index (stepNumber st) then history st !! Z.to_nat (stepNumber st)
  else None.

(** Reading [current.squares] of [undefined] throws. *)
Definition status (st : state) : completion string :=
  match current st with
  | None => Abrupt TypeError
  | Some current =>
      let winner := calculateWinner (squares current) in
      if truthy winner then Normal ("Winner: " ++ template winner)%string
      else if every truthy (squares current) then Normal "Scratch: Cat's game"%string
      else Normal ("Next player: " ++ (if xIsNext st then "X" else "O"))%string
  end.

(** [history.map((_, stepNumber) => ...)]: one button per entry, with its
    description and the action it dispatches. *)
Definition moves (st : state) : list (string * action.t) :=
  imap (λ stepNumber _,
          ((if decide (stepNumber = 0) then "Go to game start"
            else "Go to move #" ++ pretty stepNumber)%string,
           SET_STEPNUMBER (Z.of_nat stepNumber)))
       (history st).

(** [selectSquare], the [onClick] of the [Board]. *)
Definition selectSquare (square : Z) : action.t := SELECT_SQUARE square.

(** Every action a click on the rendered game can dispatch; a game whose
    render has thrown shows no button. *)
Definition dispatches (st : state) : list action.t :=
  match current st with
  | None => []
  | Some current =>
      (selectSquare <$> (onClick <$> concat (board_rows (squares current))))
      ++ (snd <$> moves st)
  end.

(** The states that clicks lead to, the reducer having returned a state each
    time. *)
Inductive played : state → Prop :=
  | played_initial : played initialState
  | played_dispatch st a st' :
      played st → a ∈ dispatches st → boardReducer st a = Return st' → played st'.

End Game.

(** A 3 x 3 board as the games keep it: nine cells, each [null], ['X'] or
    ['O'], and no other property. *)
Definition is_cell (v : value) : Prop := v = Null ∨ v = markX ∨ v = markO.

Definition is_board (a : jsarray) : Prop :=
  length (elems a) = 9 ∧ props a = ∅ ∧ Forall is_cell (elems a).

(** The number of marks on a board. *)
Definition marks (a : jsarray) : nat :=
  length (filter (λ v, truthy v = true) (elems a)).

(** The entries of a history follow one another by one move each: entry
    [i + 1] is entry [i] with one empty cell taken, by X when [i] is even and
    by O when it is odd. *)
Definition successive (h : list snapshot) : Prop :=
  ∀ i s s', h !! i = Some s → h !! S i = Some s' →
    ∃ square, (0 ≤ square ≤ 8)%Z ∧
      arr_get (squares s) square = Null ∧
      squares s' = arr_set (squares s) square (mark (Nat.even i)).

(** What the games keep true of the state of the [useReducer] game. *)
Record game_invariant (st : state) : Prop := {
  inv_cursor : cursor_in_range st;
  inv_start : history st !! 0 = Some {| squares := Array_fill 9 Null |};
  inv_boards : Forall (λ s, is_board (squares s)) (history st);
  inv_successive : successive (history st);
  inv_undecided :
    ∀ i s, S i < length (history st) → history st !! i = Some s →
      calculateWinner (squares s) = Null;
}.

(** What the [selectSquare] of a [useState] board does when its guard lets the
    move through. *)
Definition place (b : board) (square : Z) : board :=
  {| board_squares := arr_set (spread (board_squares b)) square (mark (board_xIsNext b));
     board_xIsNext := negb (board_xIsNext b) |}.

(** What the [useState] boards keep true: the squares are a board, [xIsNext]
    is in step with the number of marks, and a winner is who moved last. *)
Record board_invariant (b : board) : Prop := {
  binv_board : is_board (board_squares b);
  binv_turn : board_xIsNext b = Nat.even (marks (board_squares b));
}.

(** The errors that the specification names for a move. *)
Inductive MoveError : Set :=
  | CellOccupied
  | AlreadyDecided
  | IndexOutOfRange.

(** * Properties *)

(** ** Arrays *)

Section arrays.
Implicit Types (a : jsarray) (k : Z) (v : value).

Lemma arr_get_set_eq a k v : arr_get (arr_set a k v) k = v.
Proof.
  unfold arr_get, arr_set.
  destruct (is_array_index k) eqn:Hk; simpl.
  - destruct (decide (Z.to_nat k < length (elems a))) as [Hlt|Hge]; simpl.
    + by rewrite list_lookup_insert_eq.
    + rewrite lookup_app_r by lia.
      rewrite lookup_app_r; rewrite length_replicate; [|lia].
      by replace (_ - _ - _) with 0 by lia.
  - by rewrite lookup_insert_eq.
Qed.

Lemma arr_get_set_ne a k k' v :
  k ≠ k' → (0 ≤ k' < Z.of_nat (length (elems a)))%Z →
  arr_get (arr_set a k v) k' = arr_get a k'.
Proof.
  intros Hne Hk'. unfold arr_get, arr_set.
  destruct (is_array_index k') eqn:Hi'; last first.
  { destruct (is_array_index k) eqn:Hi; simpl; try done;
      [by destruct (decide _)|].
    by rewrite lookup_insert_ne. }
  destruct (is_array_index k) eqn:Hi; simpl; [|done].
  unfold is_array_index in Hi. apply bool_decide_eq_true in Hi.
  destruct (decide (Z.to_nat k < length (elems a))); simpl.
  - rewrite list_lookup_insert_ne; [done|lia].
  - rewrite lookup_app_l; [done|lia].
Qed.

(** On array indices the copy reads like the original. *)
Lemma arr_get_spread a k :
  is_array_index k = true → arr_get (spread a) k = arr_get a k.
Proof. intros Hk. unfold arr_get. by rewrite Hk. Qed.

(** Every other key of the copy is missing. *)
Lemma arr_get_spread_no_index a k :
  is_array_index k = false → arr_get (spread a) k = Undefined.
Proof. intros Hk. unfold arr_get. by rewrite Hk. Qed.

(** Past the end of the elements, an index reads [undefined]. *)
Lemma arr_get_spread_beyond a k :
  (Z.of_nat (length (elems a)) ≤ k)%Z → arr_get (spread a) k = Undefined.
Proof.
  intros Hk. unfold arr_get. destruct (is_array_index k); [|done].
  simpl. rewrite lookup_ge_None_2; [done|lia].
Qed.

Lemma arr_get_spread_negative a k :
  (k < 0)%Z → arr_get (spread a) k = Undefined.
Proof.
  intros Hk. apply arr_get_spread_no_index.
  apply bool_decide_eq_false. lia.
Qed.

(** [calculateWinner] reads the keys 0 to 8 only, so it cannot tell a copy
    from the original. *)
Lemma calculateWinner_spread a : calculateWinner (spread a) = calculateWinner a.
Proof. reflexivity. Qed.

End arrays.

(** ** [slice] *)

Section slice.
Context {A : Type}.
Implicit Types (l : list A) (c : Z).

(** With the cursor on an existing entry, [slice(0, c + 1)] keeps the
    entries up to it, and its last entry is the one under the cursor. *)
Lemma slice0_cursor l c :
  (0 ≤ c < Z.of_nat (length l))%Z →
  slice0 l (c + 1) = take (S (Z.to_nat c)) l.
Proof.
  intros Hc. unfold slice0.
  destruct (Z.ltb_spec (c + 1) 0); [lia|].
  f_equal. lia.
Qed.

Lemma last_slice0_cursor l c :
  (0 ≤ c < Z.of_nat (length l))%Z →
  last (slice0 l (c + 1)) = l !! Z.to_nat c.
Proof.
  intros Hc. rewrite slice0_cursor by done.
  rewrite last_lookup, length_take.
  replace (pred (S (Z.to_nat c) `min` length l)) with (Z.to_nat c) by lia.
  apply lookup_take_lt. lia.
Qed.

(** Whatever the bound, [slice] returns a prefix. *)
Lemma slice0_prefix l e : slice0 l e `prefix_of` l.
Proof. unfold slice0. apply prefix_take. Qed.

End slice.

(** ** [calculateWinner] *)

Section winner.
Implicit Types (squares : operand) (l : Z * Z * Z) (m : value).

Lemma line_test_true squares l :
  line_test squares l = true ↔ three_in_line squares l (get squares l.1.1).
Proof.
  destruct l as [[a b] c]. unfold line_test, three_in_line, strict_eq. simpl.
  rewrite !andb_true_iff, !bool_decide_eq_true.
  split.
  - intros [[Ht Hb] Hc]. by rewrite <-Hb, <-Hc.
  - intros (Ht & _ & Hb & Hc). by rewrite Hb, Hc.
Qed.

Lemma line_test_false squares l m :
  line_test squares l = false → ¬ three_in_line squares l m.
Proof.
  intros Hf Hm. assert (get squares l.1.1 = m) as Hget by apply Hm.
  rewrite <-Hget in Hm. apply line_test_true in Hm. congruence.
Qed.

Lemma three_in_line_test squares l m :
  three_in_line squares l m → line_test squares l = true ∧ get squares l.1.1 = m.
Proof.
  intros Hm. assert (get squares l.1.1 = m) as Hget by apply Hm.
  split; [|done]. apply line_test_true. by rewrite Hget.
Qed.

(** The loop stops at the first line that passes the test. *)
Lemma calculateWinner_loop_first squares before l after :
  (∀ l', l' ∈ before → line_test squares l' = false) →
  line_test squares l = true →
  calculateWinner_loop squares (before ++ l :: after) = get squares l.1.1.
Proof.
  intros Hbefore Hl. induction before as [|l0 before IH]; simpl.
  - by rewrite Hl.
  - rewrite (Hbefore l0) by left. apply IH. intros l' Hl'. apply Hbefore. by right.
Qed.

Lemma calculateWinner_loop_none squares ls :
  (∀ l, l ∈ ls → line_test squares l = false) →
  calculateWinner_loop squares ls = Null.
Proof.
  induction ls as [|l ls IH]; intros Hls; simpl; [done|].
  rewrite (Hls l) by left. apply IH. intros l' Hl'. apply Hls. by right.
Qed.

(** Either some line passes, and then there is a first one, or none does. *)
Lemma first_passing_line squares ls :
  (∃ before l after, ls = before ++ l :: after
     ∧ (∀ l', l' ∈ before → line_test squares l' = false)
     ∧ line_test squares l = true)
  ∨ (∀ l, l ∈ ls → line_test squares l = false).
Proof.
  induction ls as [|l ls IH].
  - right. intros l Hl. by apply elem_of_nil in Hl.
  - destruct (line_test squares l) eqn:Hl.
    + left. exists [], l, ls. split_and!; [done| |done].
      intros l' Hl'. by apply elem_of_nil in Hl'.
    + destruct IH as [(before & l1 & after & -> & Hbefore & Hl1)|Hnone].
      * left. exists (l :: before), l1, after. split_and!; [done| |done].
        intros l' [->|Hl']%elem_of_cons; auto.
      * right. intros l' [->|Hl']%elem_of_cons; auto.
Qed.

(** A winner is a truthy value, so [null] is returned by the fall-through
    only. *)
Lemma calculateWinner_truthy squares :
  truthy (calculateWinner squares) = true ↔
  ∃ l, l ∈ lines ∧ line_test squares l = true.
Proof.
  unfold calculateWinner. split.
  - destruct (first_passing_line squares lines)
      as [(before & l & after & Hlines & _ & Hl)|Hnone].
    + intros _. exists l. split; [|done]. rewrite Hlines.
      apply elem_of_app. right. by left.
    + by rewrite calculateWinner_loop_none.
  - intros (l & Hin & Hl).
    destruct (first_passing_line squares lines)
      as [(before & l1 & after & Hlines & Hbefore & Hl1)|Hnone].
    + rewrite Hlines, calculateWinner_loop_first by done.
      apply line_test_true in Hl1. apply Hl1.
    + rewrite Hnone in Hl; done.
Qed.

End winner.

(** C5. On every board, [calculateWinner] goes through exactly the eight
    lines of the board (the three rows, the three columns, the two diagonals)
    in the fixed order of [lines]; it returns the mark of the first line whose
    three cells hold equal non-empty marks, and [null] when no line does. One
    of the two always applies. *)
Theorem calculateWinner_first_line_in_order (squares : jsarray) :
  lines = rows ++ columns ++ diagonals ∧ length lines = 8 ∧ NoDup lines ∧
  (∀ l m, first_line squares l m → calculateWinner squares = m) ∧
  ((∀ l m, l ∈ lines → ¬ three_in_line squares l m) →
     calculateWinner squares = Null) ∧
  ((∃ l m, first_line squares l m) ∨ (∀ l m, l ∈ lines → ¬ three_in_line squares l m)).
Proof.
  split_and!.
  - reflexivity.
  - reflexivity.
  - apply (bool_decide_unpack _). by vm_compute.
  - intros l m (before & after & Hlines & Hm & Hbefore).
    apply three_in_line_test in Hm as [Hl <-].
    unfold calculateWinner. rewrite Hlines.
    apply calculateWinner_loop_first; [|done].
    intros l' Hl'. destruct (line_test squares l') eqn:Ht; [|done].
    apply line_test_true in Ht. by apply Hbefore in Ht.
  - intros Hnone. apply calculateWinner_loop_none.
    intros l Hl. destruct (line_test squares l) eqn:Ht; [|done].
    apply line_test_true in Ht. by apply Hnone in Ht.
  - destruct (first_passing_line squares lines)
      as [(before & l & after & Hlines & Hbefore & Hl)|Hnone].
    + left. exists l, (get squares l.1.1), before, after.
      split_and!; [done|by apply line_test_true|].
      intros l' m' Hl'. apply line_test_false. by apply Hbefore.
    + right. intros l m Hl. apply line_test_false. by apply Hnone.
Qed.

(** ** The reducer *)

Section reducer.
Implicit Types (st : state) (current : snapshot) (square : Z).

Lemma truthy_js_or (a b : value) : truthy (js_or a b) = truthy a || truthy b.
Proof. unfold js_or. by destruct (truthy a) eqn:Ha. Qed.

Lemma guard_or current square :
  guard current square =
    truthy (calculateWinner (squares current))
    || truthy (arr_get (spread (squares current)) square).
Proof. unfold guard. by rewrite truthy_js_or, calculateWinner_spread. Qed.

Lemma boardReducer_SELECT_SQUARE st square :
  boardReducer st (SELECT_SQUARE square) =
    match last (slice0 (history st) (stepNumber st + 1)) with
    | None => Throw TypeError
    | Some current =>
        if guard current square then ReturnUndefined
        else Return {| history := slice0 (history st) (stepNumber st + 1)
                                    ++ [next_snapshot st current square];
                       stepNumber := stepNumber st + 1 |}
    end.
Proof. reflexivity. Qed.

(** A move that the guard stops ends in the bare [return]. *)
Lemma boardReducer_rejects st current square :
  cursor_in_range st →
  history st !! Z.to_nat (stepNumber st) = Some current →
  guard current square = true →
  boardReducer st (SELECT_SQUARE square) = ReturnUndefined.
Proof.
  intros Hc Hcur Hg.
  rewrite boardReducer_SELECT_SQUARE, last_slice0_cursor, Hcur by done.
  by rewrite Hg.
Qed.

(** A move that passes the guard appends to the entries up to the cursor. *)
Lemma boardReducer_accepts st current square :
  cursor_in_range st →
  history st !! Z.to_nat (stepNumber st) = Some current →
  guard current square = false →
  boardReducer st (SELECT_SQUARE square) =
    Return {| history := take (S (Z.to_nat (stepNumber st))) (history st)
                           ++ [next_snapshot st current square];
              stepNumber := stepNumber st + 1 |}.
Proof.
  intros Hc Hcur Hg.
  rewrite boardReducer_SELECT_SQUARE, last_slice0_cursor, Hcur by done.
  by rewrite Hg, slice0_cursor.
Qed.

(** Whatever the state, a returned state has one entry more than were
    kept, its cursor is one further, and its last entry holds the mark of
    the mover under the selected key. *)
Lemma boardReducer_returns st square st' :
  boardReducer st (SELECT_SQUARE square) = Return st' →
  ∃ current,
    last (slice0 (history st) (stepNumber st + 1)) = Some current ∧
    guard current square = false ∧
    history st' = slice0 (history st) (stepNumber st + 1)
                    ++ [next_snapshot st current square] ∧
    stepNumber st' = (stepNumber st + 1)%Z.
Proof.
  rewrite boardReducer_SELECT_SQUARE.
  destruct (last _) as [current|]; [|done].
  destruct (guard current square) eqn:Hg; [done|].
  intros [= <-]. by exists current.
Qed.

(** [n % 2 === 0] holds exactly of the even [n], negative ones included. *)
Lemma rem_2_even (n : Z) : (Z.rem n 2 =? 0)%Z = Z.even n.
Proof.
  pose proof (Z.quot_rem' n 2) as Hn.
  pose proof (Z.rem_bound_abs n 2 ltac:(lia)) as Hb.
  rewrite Hn at 2. rewrite Z.add_comm, Z.even_add_mul_2.
  assert (Z.rem n 2 = -1 ∨ Z.rem n 2 = 0 ∨ Z.rem n 2 = 1)%Z
    as [-> | [-> | ->]] by lia; reflexivity.
Qed.

Lemma xIsNext_even st : xIsNext st = Z.even (stepNumber st).
Proof. apply rem_2_even. Qed.

Lemma xIsNext_succ st st' :
  stepNumber st' = (stepNumber st + 1)%Z → xIsNext st' = negb (xIsNext st).
Proof.
  intros Hs. rewrite !xIsNext_even, Hs, Z.add_1_r, Z.even_succ.
  by rewrite <-Z.negb_even.
Qed.

End reducer.

Lemma play_top_row_game :
  play initialState [0; 4; 1; 8; 2]%Z = Some {| history := top_row_game; stepNumber := 5 |}.
Proof. reflexivity. Qed.

(** ** Unknown actions *)

(** C10. For every state and every action whose type is neither
    ['SET_STEPNUMBER'] nor ['SELECT_SQUARE'], the reducer throws an [Error]
    whose message names the type; it returns no state. *)
Theorem boardReducer_unknown_action_throws (st : state) (a : action.t) :
  action.type a ≠ "SET_STEPNUMBER"%string →
  action.type a ≠ "SELECT_SQUARE"%string →
  boardReducer st a = Throw (Error ("Unexpection action: " ++ action.type a)%string).
Proof.
  intros Hset Hsel. unfold boardReducer.
  apply String.eqb_neq in Hset, Hsel. by rewrite Hset, Hsel.
Qed.

Lemma boardReducer_unknown_action_throws_witness :
  boardReducer initialState
    {| action.type := "RESET"%string; action.stepNumber := 0; action.square := 0 |}
  = Throw (Error "Unexpection action: RESET"%string).
Proof.
  apply (boardReducer_unknown_action_throws initialState
           {| action.type := "RESET"%string; action.stepNumber := 0; action.square := 0 |});
    simpl; discriminate.
Defined.

(** ** [SET_STEPNUMBER] *)

(** C2, as the code has it. For every state and every integer index, in
    range or not, [SET_STEPNUMBER] returns a state whose cursor is the index
    and whose history is the one it was given; it never fails. *)
Theorem boardReducer_SET_STEPNUMBER (st : state) (a : action.t) :
  action.type a = "SET_STEPNUMBER"%string →
  boardReducer st a =
    Return {| history := history st; stepNumber := action.stepNumber a |}.
Proof. intros Ha. unfold boardReducer. by rewrite Ha. Qed.

Lemma boardReducer_SET_STEPNUMBER_witness :
  boardReducer {| history := top_row_game; stepNumber := 5 |} (SET_STEPNUMBER 2) =
    Return {| history := top_row_game; stepNumber := 2 |}.
Proof.
  apply (boardReducer_SET_STEPNUMBER
           {| history := top_row_game; stepNumber := 5 |} (SET_STEPNUMBER 2)).
  reflexivity.
Defined.

(** C2 fails as stated: the history of the initial state has the single index
    0, and yet jumping to index 5 throws nothing and returns a state whose
    cursor is 5. *)
Lemma SET_STEPNUMBER_out_of_range_accepted :
  ¬ (0 ≤ 5 ≤ Z.of_nat (length (history initialState)) - 1)%Z ∧
  boardReducer initialState (SET_STEPNUMBER 5) =
    Return {| history := history initialState; stepNumber := 5 |} ∧
  ∀ e, boardReducer initialState (SET_STEPNUMBER 5) ≠ Throw e.
Proof. split_and!; [simpl; lia|reflexivity|discriminate]. Qed.

(** ** Moves that the guard stops *)

(** C1, where the code departs from it. After X took cell 0, selecting cell 0
    again ends in the bare [return]: the reducer hands back [undefined], not
    the state it was given.  The same happens for any move once X has won. *)
Theorem boardReducer_invalid_move_returns_undefined :
  let after_one_move := {| history := take 2 top_row_game; stepNumber := 1 |} in
  let after_win := {| history := top_row_game; stepNumber := 5 |} in
  play initialState [0]%Z = Some after_one_move ∧
  boardReducer after_one_move (SELECT_SQUARE 0) = ReturnUndefined ∧
  boardReducer after_one_move (SELECT_SQUARE 0) ≠ Return after_one_move ∧
  play initialState [0; 4; 1; 8; 2]%Z = Some after_win ∧
  boardReducer after_win (SELECT_SQUARE 5) = ReturnUndefined ∧
  boardReducer after_win (SELECT_SQUARE 5) ≠ Return after_win.
Proof. by split_and!. Qed.

(** The hooks [Board] of the same file keeps its state on such a move. *)
Lemma Hooks_selectSquare_invalid (b : board) (square : Z) :
  truthy (calculateWinner (board_squares b)) = true
  ∨ truthy (arr_get (board_squares b) square) = true →
  Hooks.selectSquare b square = b.
Proof.
  intros Hinv. unfold Hooks.selectSquare. rewrite truthy_js_or.
  by destruct Hinv as [-> | ->]; rewrite ?orb_true_r.
Qed.

(** Once the current board has a winner, the reducer stops every move. *)
Lemma boardReducer_stops_after_win (st : state) (current : snapshot) (square : Z) :
  cursor_in_range st →
  history st !! Z.to_nat (stepNumber st) = Some current →
  truthy (calculateWinner (squares current)) = true →
  boardReducer st (SELECT_SQUARE square) = ReturnUndefined.
Proof.
  intros Hc Hcur Hwin. apply (boardReducer_rejects st current); [done..|].
  by rewrite guard_or, Hwin.
Qed.

(** ** The guard of the "Advanced State" board *)

(** Called on a number, [calculateWinner] finds no line. *)
Lemma calculateWinner_Num (n : Z) : calculateWinner (Num n) = Null.
Proof. reflexivity. Qed.

Lemma decided_board_reached :
  foldl AdvancedState.selectSquare
    {| board_squares := Array_fill 9 Null; board_xIsNext := true |}
    [3; 1; 4; 2; 5]%Z = decided_board.
Proof. reflexivity. Qed.

(** C4, where the code departs from it. On a board that X has won, the
    [selectSquare] of the "Advanced State" exercise still places the mark of
    O in the empty cell 6: its guard asks [calculateWinner] about the index,
    not about the squares. The hooks [Board] stops that move, and so does
    the reducer on a game that X has won. *)
Theorem AdvancedState_selectSquare_after_win :
  calculateWinner (board_squares decided_board) = markX ∧
  arr_get (board_squares decided_board) 6 = Null ∧
  arr_get (board_squares (AdvancedState.selectSquare decided_board 6)) 6 = markO ∧
  AdvancedState.selectSquare decided_board 6 ≠ decided_board ∧
  Hooks.selectSquare decided_board 6 = decided_board ∧
  boardReducer {| history := top_row_game; stepNumber := 5 |} (SELECT_SQUARE 6)
    = ReturnUndefined.
Proof. by split_and!. Qed.

(** ** The states of the game *)

(** In every state the [Game] component reaches, the cursor designates an
    entry of the history. *)
Lemma reachable_cursor_in_range (st : state) : reachable st → cursor_in_range st.
Proof.
  unfold cursor_in_range.
  induction 1 as [|st square st' _ IH Hstep|st i st' _ IH Hi Hstep].
  - simpl. lia.
  - apply boardReducer_returns in Hstep as (current & _ & _ & Hh & Hs).
    rewrite Hh, Hs, length_app, slice0_cursor, length_take by done.
    rewrite length_cons, length_nil. lia.
  - injection Hstep as <-. simpl. lia.
Qed.

(** ** Moves that pass the guard *)

(** C3. For every state whose cursor designates an entry of the history, a
    [SELECT_SQUARE] that passes the guard keeps the entries 0 to the cursor,
    appends the new snapshot after them, and sets the cursor to the new last
    index; from a history of five entries with the cursor at 0, the new
    history has exactly two. *)
Theorem SELECT_SQUARE_truncates_then_appends
    (st : state) (current : snapshot) (square : Z) :
  cursor_in_range st →
  history st !! Z.to_nat (stepNumber st) = Some current →
  guard current square = false →
  ∃ st',
    boardReducer st (SELECT_SQUARE square) = Return st' ∧
    history st' = take (S (Z.to_nat (stepNumber st))) (history st)
                    ++ [next_snapshot st current square] ∧
    stepNumber st' = (Z.of_nat (length (history st')) - 1)%Z ∧
    (length (history st) = 5 → stepNumber st = 0%Z → length (history st') = 2).
Proof.
  intros Hc Hcur Hg. eexists. split; [by apply boardReducer_accepts|].
  unfold cursor_in_range in Hc. cbn [history stepNumber].
  split_and!; [done|..].
  - rewrite length_app, length_take, length_cons, length_nil. lia.
  - intros Hlen Hzero. rewrite length_app, length_take, Hlen, Hzero. reflexivity.
Qed.

Lemma SELECT_SQUARE_truncates_then_appends_witness :
  let st := {| history := take 5 top_row_game; stepNumber := 0 |} in
  ∃ st',
    boardReducer st (SELECT_SQUARE 3) = Return st' ∧
    history st' = take 1 top_row_game
                    ++ [board_of [Null; Null; Null; markX; Null; Null; Null; Null; Null]] ∧
    stepNumber st' = (Z.of_nat (length (history st')) - 1)%Z ∧
    (length (history st) = 5 → stepNumber st = 0%Z → length (history st') = 2).
Proof.
  apply (SELECT_SQUARE_truncates_then_appends
           {| history := take 5 top_row_game; stepNumber := 0 |}
           (board_of [Null; Null; Null; Null; Null; Null; Null; Null; Null]) 3).
  - unfold cursor_in_range. simpl. lia.
  - reflexivity.
  - reflexivity.
Defined.

(** C6 fails as stated: on the initial state, selecting cell 9 throws
    nothing; the reducer returns a state with a second snapshot, whose array
    has grown to ten elements with X at index 9. *)
Lemma SELECT_SQUARE_9_accepted :
  ¬ (0 ≤ 9 ≤ 8)%Z ∧
  boardReducer initialState (SELECT_SQUARE 9) =
    Return {| history :=
                [ board_of [Null; Null; Null; Null; Null; Null; Null; Null; Null];
                  board_of [Null; Null; Null; Null; Null; Null; Null; Null; Null; markX] ];
              stepNumber := 1 |} ∧
  ∀ e, boardReducer initialState (SELECT_SQUARE 9) ≠ Throw e.
Proof. split_and!; [lia|reflexivity|discriminate]. Qed.

(** C6, as the code has it. The reducer makes no range check. For every state
    whose cursor designates a 9-cell board and every integer index outside
    [0, 8], [SELECT_SQUARE] throws nothing: when the board has a winner it
    ends in the bare [return], like any stopped move; otherwise it appends a
    snapshot that holds the mover's mark under that key and moves the cursor
    on by one. *)
Theorem SELECT_SQUARE_outside_board
    (st : state) (current : snapshot) (square : Z) :
  cursor_in_range st →
  history st !! Z.to_nat (stepNumber st) = Some current →
  length (elems (squares current)) = 9 →
  ¬ (0 ≤ square ≤ 8)%Z →
  boardReducer st (SELECT_SQUARE square) =
    (if truthy (calculateWinner (squares current)) then ReturnUndefined
     else Return {| history := take (S (Z.to_nat (stepNumber st))) (history st)
                                 ++ [next_snapshot st current square];
                    stepNumber := stepNumber st + 1 |}) ∧
  arr_get (squares (next_snapshot st current square)) square = mark (xIsNext st).
Proof.
  intros Hc Hcur Hlen Hout. split; [|apply arr_get_set_eq].
  assert (arr_get (spread (squares current)) square = Undefined) as Hget.
  { destruct (decide (square < 0)%Z).
    - by apply arr_get_spread_negative.
    - apply arr_get_spread_beyond. lia. }
  assert (guard current square = truthy (calculateWinner (squares current))) as Hg.
  { by rewrite guard_or, Hget, orb_false_r. }
  destruct (truthy (calculateWinner (squares current))).
  - by apply (boardReducer_rejects st current).
  - by apply boardReducer_accepts.
Qed.

Lemma SELECT_SQUARE_outside_board_witness :
  let st := {| history := take 2 top_row_game; stepNumber := 1 |} in
  let current := board_of [markX; Null; Null; Null; Null; Null; Null; Null; Null] in
  boardReducer st (SELECT_SQUARE 12) =
    Return {| history := take 2 top_row_game ++ [next_snapshot st current 12];
              stepNumber := 2 |} ∧
  arr_get (squares (next_snapshot st current 12)) 12 = markO.
Proof.
  apply (SELECT_SQUARE_outside_board
           {| history := take 2 top_row_game; stepNumber := 1 |}
           (board_of [markX; Null; Null; Null; Null; Null; Null; Null; Null]) 12).
  - unfold cursor_in_range. simpl. lia.
  - reflexivity.
  - reflexivity.
  - lia.
Defined.

(** ** Turns *)

(** C7. The mark a move places depends on the parity of the cursor alone: X
    when it is even, O when it is odd, for every cursor value. Hence, from a
    state whose cursor is the index of an entry of the history (where
    [stepNumber + 1] is exact: a history has fewer than 2^32 entries), of two
    [SELECT_SQUARE] actions that return a state one after the other, the
    second places the other mark: each new last snapshot holds its mover's
    mark under the selected key, and the two movers differ. *)
Theorem turn_by_cursor_parity (st st1 st2 : state) (square1 square2 : Z) :
  cursor_in_range st →
  boardReducer st (SELECT_SQUARE square1) = Return st1 →
  boardReducer st1 (SELECT_SQUARE square2) = Return st2 →
  (∀ s : state,
     mark (xIsNext s) = if Z.even (stepNumber s) then Str "X"%string else Str "O"%string) ∧
  (∃ s1 s2,
     last (history st1) = Some s1 ∧ arr_get (squares s1) square1 = mark (xIsNext st) ∧
     last (history st2) = Some s2 ∧ arr_get (squares s2) square2 = mark (xIsNext st1)) ∧
  xIsNext st1 = negb (xIsNext st) ∧
  mark (xIsNext st1) ≠ mark (xIsNext st).
Proof.
  intros _ (c1 & _ & _ & Hh1 & Hs1)%boardReducer_returns
         (c2 & _ & _ & Hh2 & Hs2)%boardReducer_returns.
  split_and!.
  - intros s. by rewrite xIsNext_even.
  - exists (next_snapshot st c1 square1), (next_snapshot st1 c2 square2).
    rewrite Hh1, Hh2, !last_snoc. split_and!; try done; apply arr_get_set_eq.
  - by apply xIsNext_succ.
  - rewrite (xIsNext_succ st st1) by done. by destruct (xIsNext st).
Qed.

Lemma turn_by_cursor_parity_witness :
  let st := {| history := take 2 top_row_game; stepNumber := 1 |} in
  let st1 := {| history := take 3 top_row_game; stepNumber := 2 |} in
  let st2 := {| history := take 4 top_row_game; stepNumber := 3 |} in
  (∀ s : state,
     mark (xIsNext s) = if Z.even (stepNumber s) then Str "X"%string else Str "O"%string) ∧
  (∃ s1 s2,
     last (history st1) = Some s1 ∧ arr_get (squares s1) 4 = mark (xIsNext st) ∧
     last (history st2) = Some s2 ∧ arr_get (squares s2) 1 = mark (xIsNext st1)) ∧
  xIsNext st1 = negb (xIsNext st) ∧
  mark (xIsNext st1) ≠ mark (xIsNext st).
Proof.
  apply (turn_by_cursor_parity
           {| history := take 2 top_row_game; stepNumber := 1 |}
           {| history := take 3 top_row_game; stepNumber := 2 |}
           {| history := take 4 top_row_game; stepNumber := 3 |} 4 1).
  - unfold cursor_in_range. simpl. lia.
  - reflexivity.
  - reflexivity.
Defined.

(** ** Runs of moves *)

Section runs.
Implicit Types (st : state) (moves : list Z).

Lemma play_app st moves1 moves2 :
  play st (moves1 ++ moves2) = play st moves1 ≫= λ st1, play st1 moves2.
Proof.
  revert st. induction moves1 as [|square moves1 IH]; intros st; simpl; [done|].
  by destruct (boardReducer st (SELECT_SQUARE square)).
Qed.

(** With the cursor on the last entry, a returned state has one entry more
    and its cursor is on the last entry again. *)
Lemma boardReducer_at_end st square st' :
  stepNumber st = (Z.of_nat (length (history st)) - 1)%Z →
  boardReducer st (SELECT_SQUARE square) = Return st' →
  length (history st') = S (length (history st)) ∧
  stepNumber st' = (Z.of_nat (length (history st')) - 1)%Z.
Proof.
  intros Hend (current & Hlast & _ & Hh & Hs)%boardReducer_returns.
  assert (length (history st) ≠ 0) as Hne.
  { intros Hnil. apply nil_length_inv in Hnil.
    rewrite Hnil in Hlast. unfold slice0 in Hlast. by rewrite take_nil in Hlast. }
  rewrite slice0_cursor in Hh by lia.
  rewrite take_ge in Hh by lia.
  rewrite Hh, Hs, length_app, length_cons, length_nil. lia.
Qed.

Lemma play_at_end st moves st' :
  stepNumber st = (Z.of_nat (length (history st)) - 1)%Z →
  play st moves = Some st' →
  length (history st') = length (history st) + length moves ∧
  stepNumber st' = (Z.of_nat (length (history st')) - 1)%Z.
Proof.
  revert st. induction moves as [|square moves IH]; intros st Hend Hplay; simpl in *.
  - injection Hplay as <-. split; [lia|done].
  - destruct (boardReducer st (SELECT_SQUARE square)) as [st1| |] eqn:Hstep; try done.
    destruct (boardReducer_at_end st square st1 Hend Hstep) as [Hlen1 Hend1].
    destruct (IH st1 Hend1 Hplay) as [Hlen' Hend']. split; [lia|done].
Qed.

End runs.

(** C8. For every sequence of moves that the reducer accepts one after the
    other from the initial state, with no jump in between, the history has as
    many entries as moves were made plus one and the cursor is on the last
    entry; this holds after each of the moves, that is, of every prefix of
    the sequence. *)
Theorem history_length_moves_plus_one (moves : list Z) (st : state) :
  play initialState moves = Some st →
  length (history st) = length moves + 1 ∧
  stepNumber st = (Z.of_nat (length (history st)) - 1)%Z ∧
  ∀ k, k ≤ length moves →
    ∃ st_k, play initialState (take k moves) = Some st_k ∧
      length (history st_k) = k + 1 ∧
      stepNumber st_k = (Z.of_nat (length (history st_k)) - 1)%Z.
Proof.
  intros Hplay.
  assert (∀ ms s, play initialState ms = Some s →
            length (history s) = length ms + 1 ∧
            stepNumber s = (Z.of_nat (length (history s)) - 1)%Z) as Hinv.
  { intros ms s Hs. apply play_at_end in Hs as [Hlen Hend]; [|done].
    split; [|done]. rewrite Hlen. simpl. lia. }
  destruct (Hinv moves st Hplay) as [Hlen Hend]. split_and!; [done..|].
  intros k Hk. rewrite <-(take_drop k moves), play_app in Hplay.
  destruct (play initialState (take k moves)) as [st_k|] eqn:Hk_play; [|done].
  exists st_k. split; [done|].
  destruct (Hinv _ _ Hk_play) as [Hlen_k Hend_k].
  rewrite length_take in Hlen_k. split; [lia|done].
Qed.

Lemma history_length_moves_plus_one_witness :
  let st := {| history := top_row_game; stepNumber := 5 |} in
  length (history st) = 5 + 1 ∧
  stepNumber st = (Z.of_nat (length (history st)) - 1)%Z ∧
  ∀ k, k ≤ 5 →
    ∃ st_k, play initialState (take k [0; 4; 1; 8; 2]%Z) = Some st_k ∧
      length (history st_k) = k + 1 ∧
      stepNumber st_k = (Z.of_nat (length (history st_k)) - 1)%Z.
Proof.
  apply (history_length_moves_plus_one [0; 4; 1; 8; 2]%Z
           {| history := top_row_game; stepNumber := 5 |}).
  reflexivity.
Defined.

(** ** What a call writes to *)

Section store.
Import Heap.
Implicit Types (h : heap) (l : loc) (o : object).

Lemma preserved_refl h : preserved h h.
Proof. by intros l o. Qed.

Lemma preserved_trans h1 h2 h3 : preserved h1 h2 → preserved h2 h3 → preserved h1 h3.
Proof. intros H12 H23 l o Hl. by apply H23, H12. Qed.

Lemma preserved_alloc h o : preserved h (h ++ [o]).
Proof. intros l o' Hl. by apply lookup_app_l_Some. Qed.

(** Writing to a location that [h] does not have preserves [h]. *)
Lemma preserved_store h h' l o :
  preserved h h' → length h ≤ l → preserved h (<[l := o]> h').
Proof.
  intros Hp Hl l' o' Hl'. rewrite list_lookup_insert_ne; [by apply Hp|].
  apply lookup_lt_Some in Hl'. lia.
Qed.

(** What is read back from [h] is read back from any store that preserves
    it. *)
Lemma cells_at_preserved h h' l (a : jsarray) :
  preserved h h' → cells_at h l = Some a → cells_at h' l = Some a.
Proof.
  unfold cells_at. intros Hp Ha.
  destruct (h !! l) as [[]|] eqn:Hl; simplify_eq. by rewrite (Hp _ _ Hl).
Qed.

Lemma snapshot_at_preserved h h' l (s : snapshot) :
  preserved h h' → snapshot_at h l = Some s → snapshot_at h' l = Some s.
Proof.
  unfold snapshot_at. intros Hp Hs.
  destruct (h !! l) as [[|c|]|] eqn:Hl; simplify_eq. rewrite (Hp _ _ Hl).
  destruct (cells_at h c) as [a|] eqn:Hc; simplify_eq/=.
  by rewrite (cells_at_preserved h h' c a).
Qed.

Lemma history_at_preserved h h' l (hist : list snapshot) :
  preserved h h' → history_at h l = Some hist → history_at h' l = Some hist.
Proof.
  unfold history_at. intros Hp Hh.
  destruct (h !! l) as [[| |e]|] eqn:Hl; simplify_eq. rewrite (Hp _ _ Hl).
  apply mapM_Some in Hh. apply mapM_Some.
  eapply Forall2_impl; [done|]. intros ??. by apply snapshot_at_preserved.
Qed.

(** No call of the reducer changes an object that was in the store. *)
Lemma boardReducer_preserves (st : Heap.state) (a : action.t) h :
  preserved h (Heap.boardReducer st a h).2.
Proof.
  unfold Heap.boardReducer.
  destruct (String.eqb _ _); [apply preserved_refl|].
  destruct (String.eqb _ _); [|apply preserved_refl].
  unfold bind, load_entries, load_squares, load_cells, alloc, store, throw, ret.
  repeat (case_match; simplify_eq/=);
    repeat first
      [ apply preserved_refl
      | apply preserved_alloc
      | apply preserved_store; [|rewrite ?length_app; simpl; lia]
      | eapply preserved_trans; [|apply preserved_alloc] ].
Qed.

End store.

Section rejection.
Import Heap.
Implicit Types (h : heap) (l : loc) (a : jsarray).

(** An occupied cell stops the move, in the copy as in the original. *)
Lemma occupied_guard a square :
  occupied a square = true →
  truthy (js_or (calculateWinner (spread a)) (arr_get (spread a) square)) = true.
Proof.
  unfold occupied. intros [Hi Ht]%andb_true_iff.
  rewrite truthy_js_or, arr_get_spread by done. rewrite Ht. apply orb_true_r.
Qed.

Lemma occupied_guard_Num a square :
  occupied a square = true →
  truthy (js_or (calculateWinner (Num square)) (arr_get a square)) = true.
Proof.
  unfold occupied. intros [_ Ht]%andb_true_iff.
  rewrite truthy_js_or, Ht. apply orb_true_r.
Qed.

Lemma reducer_rejects_occupied h (st : Heap.state) entries current cells a square :
  h !! history st = Some (Entries entries) →
  last (slice0 entries (stepNumber st + 1)) = Some current →
  h !! current = Some (Snapshot cells) →
  h !! cells = Some (Cells a) →
  occupied a square = true →
  Heap.boardReducer st (SELECT_SQUARE square) h =
    (Val ReturnUndefined,
     h ++ [Entries (slice0 entries (stepNumber st + 1)); Cells (spread a)]).
Proof.
  intros Hhist Hlast Hcur Hcells Hocc.
  unfold Heap.boardReducer. simpl.
  unfold bind, load_entries, alloc. rewrite Hhist.
  rewrite list_lookup_middle by done. rewrite Hlast.
  unfold load_squares. rewrite (lookup_app_l_Some _ _ _ _ Hcur).
  unfold load_cells at 1. rewrite (lookup_app_l_Some _ _ _ _ Hcells).
  unfold load_cells. rewrite list_lookup_middle by done.
  rewrite occupied_guard by done. unfold ret.
  by rewrite <-app_assoc.
Qed.

Lemma selectSquare_rejects_occupied h (b : Heap.board) a square :
  h !! board_squares b = Some (Cells a) →
  occupied a square = true →
  Heap.selectSquare b square h = (Val b, h).
Proof.
  intros Hcells Hocc. unfold Heap.selectSquare, bind, load_cells.
  rewrite Hcells. by rewrite occupied_guard_Num.
Qed.

End rejection.

(** C9, as the code has it. For every snapshot in the store and every index
    whose cell is occupied, the move is stopped by the guard, which reports
    no error value, and nothing that was in the store is written to. The
    reducer, applied to a state whose cursor designates that snapshot, throws
    nothing and ends in the bare [return]; the two objects it has allocated by
    then are new, and every object it was given, the squares of this snapshot
    and of every other entry of the history among them, is unchanged. The
    [selectSquare] of the "Advanced State" board leaves its state and the
    whole store as they were. *)
Theorem rejected_move_writes_nothing
    (h : Heap.heap) (cells : Heap.loc) (a : jsarray) (square : Z) :
  h !! cells = Some (Heap.Cells a) →
  occupied a square = true →
  (∀ (st : Heap.state) entries current,
     h !! Heap.history st = Some (Heap.Entries entries) →
     (0 ≤ Heap.stepNumber st < Z.of_nat (length entries))%Z →
     entries !! Z.to_nat (Heap.stepNumber st) = Some current →
     h !! current = Some (Heap.Snapshot cells) →
     ∃ h', Heap.boardReducer st (SELECT_SQUARE square) h
             = (Heap.Val Heap.ReturnUndefined, h') ∧
           preserved h h' ∧
           h' !! cells = Some (Heap.Cells a) ∧
           ∀ hist, history_at h (Heap.history st) = Some hist →
                   history_at h' (Heap.history st) = Some hist) ∧
  (∀ b : Heap.board,
     Heap.board_squares b = cells →
     Heap.selectSquare b square h = (Heap.Val b, h)).
Proof.
  intros Hcells Hocc. split.
  - intros st entries current Hhist Hc Hcur Hsnap.
    eexists. split.
    { eapply reducer_rejects_occupied; [done| |done..].
      by rewrite last_slice0_cursor. }
    assert (preserved h (h ++ [Heap.Entries (slice0 entries (Heap.stepNumber st + 1));
                                Heap.Cells (spread a)])) as Hp.
    { intros l o Hl. by apply lookup_app_l_Some. }
    split_and!; [done|by apply Hp|].
    intros hist. by apply history_at_preserved.
  - intros b <-. by apply (selectSquare_rejects_occupied h b a).
Qed.

(** ** The two models agree *)

Section agreement.
Import Heap.
Implicit Types (h : heap) (l : loc) (a : jsarray).

Lemma insert_snoc {A} (l : list A) (x y : A) : <[length l := x]> (l ++ [y]) = l ++ [x].
Proof.
  rewrite <-(Nat.add_0_r (length l)) at 1. by rewrite insert_app_r.
Qed.

(** A [SELECT_SQUARE] on a well-typed store, step by step: the kept entries
    and the copy of the squares are allocated first; a move that passes the
    guard is written into the copy, and a snapshot and a history follow. *)
Lemma Heap_boardReducer_SELECT_SQUARE
    h (st : Heap.state) (act : action.t) entries current cells a :
  action.type act = "SELECT_SQUARE"%string →
  h !! history st = Some (Entries entries) →
  last (slice0 entries (stepNumber st + 1)) = Some current →
  h !! current = Some (Snapshot cells) →
  h !! cells = Some (Cells a) →
  Heap.boardReducer st act h =
    let kept := slice0 entries (stepNumber st + 1) in
    let n := length h in
    if truthy (js_or (calculateWinner (spread a)) (arr_get (spread a) (action.square act)))
    then (Val ReturnUndefined, h ++ [Entries kept; Cells (spread a)])
    else (Val (Return {| history := n + 3; stepNumber := stepNumber st + 1 |}),
          h ++ [Entries kept;
                Cells (arr_set (spread a) (action.square act)
                         (mark (Z.rem (stepNumber st) 2 =? 0)%Z));
                Snapshot (n + 1);
                Entries (kept ++ [n + 2])]).
Proof.
  intros Htype Hhist Hlast Hcur Hcells.
  unfold Heap.boardReducer. rewrite Htype. simpl.
  unfold bind, load_entries, alloc. rewrite Hhist.
  rewrite list_lookup_middle by done. rewrite Hlast.
  unfold load_squares. rewrite (lookup_app_l_Some _ _ _ _ Hcur).
  unfold load_cells at 1. rewrite (lookup_app_l_Some _ _ _ _ Hcells).
  unfold load_cells. rewrite list_lookup_middle by done.
  destruct (truthy _); unfold ret, store.
  - by rewrite <-app_assoc.
  - rewrite insert_snoc. rewrite !length_app. simpl.
    rewrite <-!app_assoc. simpl.
    replace (length h + 1 + 1 + 1) with (length h + 3) by lia.
    by replace (length h + 1 + 1) with (length h + 2) by lia.
Qed.

(** The entries of a history that reads back as [hist]. *)
Lemma history_at_Some h l (hist : list snapshot) :
  history_at h l = Some hist →
  ∃ entries, h !! l = Some (Entries entries) ∧
             Forall2 (λ e s, snapshot_at h e = Some s) entries hist.
Proof.
  unfold history_at. intros Hh.
  destruct (h !! l) as [[| |e]|]; simplify_eq.
  exists e. split; [done|]. by apply mapM_Some.
Qed.

Lemma snapshot_at_Some h l (s : snapshot) :
  snapshot_at h l = Some s →
  ∃ cells, h !! l = Some (Snapshot cells) ∧ h !! cells = Some (Cells (squares s)).
Proof.
  unfold snapshot_at, cells_at. intros Hs.
  destruct (h !! l) as [[|c|]|]; simplify_eq. exists c. split; [done|].
  destruct (h !! c) as [[a| |]|]; simplify_eq/=. done.
Qed.

Lemma slice0_Forall2 {A B} (P : A → B → Prop) (l : list A) (k : list B) (e : Z) :
  Forall2 P l k → Forall2 P (slice0 l e) (slice0 k e).
Proof.
  intros Hlk. unfold slice0. rewrite (Forall2_length _ _ _ Hlk).
  by apply Forall2_take.
Qed.

End agreement.

Section simulation.
Implicit Types (h : Heap.heap) (s : state).

Lemma lookup_app_plus {A} (l k : list A) (i : nat) : (l ++ k) !! (length l + i) = k !! i.
Proof. rewrite lookup_app_r by lia. f_equal. lia. Qed.

(** The reducer over the store does what the reducer over values does: on
    a store in which the state reads back as [s], the two end the same way,
    and a returned state reads back, in the new store, as the state that
    the reducer over values returns. *)
Lemma Heap_boardReducer_agrees h (st : Heap.state) (act : action.t) s :
  state_at h st = Some s →
  match Heap.boardReducer st act h, boardReducer s act with
  | (Heap.Val (Heap.Return st'), h'), Return s' => state_at h' st' = Some s'
  | (Heap.Val Heap.ReturnUndefined, _), ReturnUndefined => True
  | (Heap.Exn e, _), Throw e' => e = e'
  | _, _ => False
  end.
Proof.
  intros Hs. unfold state_at in Hs.
  destruct (history_at h (Heap.history st)) as [hist|] eqn:Hh; simplify_eq/=.
  destruct (history_at_Some _ _ _ Hh) as (entries & Hl & Hf).
  destruct (String.eqb (action.type act) "SET_STEPNUMBER") eqn:Hset.
  { unfold Heap.boardReducer, boardReducer. rewrite Hset. simpl.
    unfold state_at. simpl. by rewrite Hh. }
  destruct (String.eqb (action.type act) "SELECT_SQUARE") eqn:Hsel; last first.
  { unfold Heap.boardReducer, boardReducer. rewrite Hset, Hsel. done. }
  pose proof (slice0_Forall2 _ _ _ (Heap.stepNumber st + 1) Hf) as Hkept.
  pose proof (Forall2_last _ _ _ Hkept) as Hlast.
  unfold boardReducer. rewrite Hset, Hsel. cbn [history stepNumber].
  destruct (last (slice0 entries _)) as [current|] eqn:Hcurrent;
    destruct (last (slice0 hist _)) as [cur|] eqn:Hlast_hist;
    inversion Hlast as [?? Hcur|]; subst.
  - destruct (snapshot_at_Some _ _ _ Hcur) as (cells & Hsnap & Hcells).
    apply String.eqb_eq in Hsel.
    rewrite (Heap_boardReducer_SELECT_SQUARE h st act entries current cells (squares cur))
      by done.
    cbn zeta. destruct (truthy _); [done|].
    set (h' := h ++ _).
    assert (preserved h h') as Hp by (intros l o Ho; by apply lookup_app_l_Some).
    unfold state_at, history_at. cbn [Heap.history Heap.stepNumber].
    unfold h' at 1. rewrite lookup_app_plus. simpl.
    erewrite (proj2 (mapM_Some _ _ _)); [done|].
    apply Forall2_app.
    + eapply Forall2_impl; [done|]. intros ??. by apply snapshot_at_preserved.
    + constructor; [|constructor].
      unfold snapshot_at, cells_at, h'. rewrite lookup_app_plus. simpl.
      by rewrite lookup_app_plus.
  - unfold Heap.boardReducer. rewrite Hset, Hsel.
    unfold Heap.bind, Heap.load_entries, Heap.alloc. rewrite Hl.
    rewrite list_lookup_middle by done.
    by rewrite Hcurrent.
Qed.

End simulation.

Section simulation_board.
Implicit Types (h : Heap.heap) (b : Heap.board).

(** The same for the [selectSquare] of the "Advanced State" board, which
    moreover leaves every object of the store as it was. *)
Lemma Heap_selectSquare_agrees h b (square : Z) (v : board) :
  board_at h b = Some v →
  ∃ b' h', Heap.selectSquare b square h = (Heap.Val b', h') ∧
           preserved h h' ∧
           board_at h' b' = Some (AdvancedState.selectSquare v square).
Proof.
  unfold board_at, cells_at. intros Hv.
  destruct (h !! Heap.board_squares b) as [[a| |]|] eqn:Hl; simplify_eq/=.
  unfold Heap.selectSquare, AdvancedState.selectSquare, Heap.bind, Heap.load_cells.
  rewrite Hl. cbn [board_squares board_xIsNext].
  destruct (truthy _).
  - exists b, h. split_and!; [done|apply preserved_refl|].
    unfold board_at, cells_at. by rewrite Hl.
  - unfold Heap.alloc. rewrite list_lookup_middle by done.
    unfold Heap.store, Heap.ret. rewrite insert_snoc.
    eexists _, _. split_and!; [done|apply preserved_alloc|].
    unfold board_at, cells_at. cbn [Heap.board_squares Heap.board_xIsNext].
    by rewrite list_lookup_middle.
Qed.

End simulation_board.

Lemma rejected_move_writes_nothing_witness :
  let a := squares (board_of [markX; Null; Null; Null; Null; Null; Null; Null; Null]) in
  (∀ (st : Heap.state) entries current,
     example_store !! Heap.history st = Some (Heap.Entries entries) →
     (0 ≤ Heap.stepNumber st < Z.of_nat (length entries))%Z →
     entries !! Z.to_nat (Heap.stepNumber st) = Some current →
     example_store !! current = Some (Heap.Snapshot 2) →
     ∃ h', Heap.boardReducer st (SELECT_SQUARE 0) example_store
             = (Heap.Val Heap.ReturnUndefined, h') ∧
           preserved example_store h' ∧
           h' !! 2 = Some (Heap.Cells a) ∧
           ∀ hist, history_at example_store (Heap.history st) = Some hist →
                   history_at h' (Heap.history st) = Some hist) ∧
  (∀ b : Heap.board,
     Heap.board_squares b = 2 →
     Heap.selectSquare b 0 example_store = (Heap.Val b, example_store)).
Proof.
  apply (rejected_move_writes_nothing example_store 2
           (squares (board_of [markX; Null; Null; Null; Null; Null; Null; Null; Null])) 0);
    reflexivity.
Defined.

(** C9 fails as stated: no [CellOccupied] is returned. After X took cell 0,
    selecting the occupied cell 0 throws nothing and ends in the bare
    [return], over values and over the store alike; that is the very outcome
    of selecting the free cell 5 once X has won, where the error would be
    [AlreadyDecided]. So nothing computed from what the reducer returns tells
    the one rejection from the other. *)
Lemma occupied_cell_reports_no_error :
  let taken := {| history := take 2 top_row_game; stepNumber := 1 |} in
  let decided := {| history := top_row_game; stepNumber := 5 |} in
  (∃ s, history taken !! 1 = Some s ∧ occupied (squares s) 0 = true) ∧
  boardReducer taken (SELECT_SQUARE 0) = ReturnUndefined ∧
  (∀ e, boardReducer taken (SELECT_SQUARE 0) ≠ Throw e) ∧
  (Heap.boardReducer {| Heap.history := 4; Heap.stepNumber := 1 |} (SELECT_SQUARE 0)
     example_store).1 = Heap.Val Heap.ReturnUndefined ∧
  (∃ s, history decided !! 5 = Some s ∧ occupied (squares s) 5 = false
        ∧ truthy (calculateWinner (squares s)) = true) ∧
  boardReducer decided (SELECT_SQUARE 5) = ReturnUndefined ∧
  ¬ (∃ report : result → MoveError,
       report (boardReducer taken (SELECT_SQUARE 0)) = CellOccupied ∧
       report (boardReducer decided (SELECT_SQUARE 5)) = AlreadyDecided).
Proof.
  split_and!.
  - eexists. split; reflexivity.
  - reflexivity.
  - discriminate.
  - reflexivity.
  - eexists. split_and!; reflexivity.
  - reflexivity.
  - intros (report & Htaken & Hdecided).
    change (boardReducer _ (SELECT_SQUARE 0)) with ReturnUndefined in Htaken.
    change (boardReducer _ (SELECT_SQUARE 5)) with ReturnUndefined in Hdecided.
    congruence.
Qed.

(** On that store, with the cursor at 1, selecting cell 0 again returns
    nothing and leaves behind the kept entries and the copy it made. *)
Lemma rejected_move_example :
  Heap.boardReducer {| Heap.history := 4; Heap.stepNumber := 1 |} (SELECT_SQUARE 0)
    example_store
  = (Heap.Val Heap.ReturnUndefined,
     example_store
       ++ [ Heap.Entries [1; 3];
            Heap.Cells (squares (board_of [markX; Null; Null; Null; Null; Null; Null; Null; Null])) ]).
Proof. reflexivity. Qed.

(** * More of the games *)

(** ** Boards *)

Section boards.
Implicit Types (a : jsarray) (v m : value) (square : Z).

Lemma spread_board a : props a = ∅ → spread a = a.
Proof. destruct a as [e p]. simpl. by intros ->. Qed.

Lemma is_cell_mark (xIsNext : bool) : is_cell (mark xIsNext).
Proof. destruct xIsNext; [right; by left|right; by right]. Qed.

Lemma truthy_mark (xIsNext : bool) : truthy (mark xIsNext) = true.
Proof. by destruct xIsNext. Qed.

Lemma is_cell_falsy v : is_cell v → truthy v = false → v = Null.
Proof. by intros [-> | [-> | ->]]. Qed.

Lemma is_array_index_cell square : (0 ≤ square ≤ 8)%Z → is_array_index square = true.
Proof. intros Hs. apply bool_decide_eq_true. lia. Qed.

Lemma is_board_empty : is_board (Array_fill 9 Null).
Proof.
  split_and!; [done..|]. simpl. repeat constructor; by left.
Qed.

(** Reading a cell of a board gives a cell value. *)
Lemma is_board_get a square : is_board a → (0 ≤ square ≤ 8)%Z → is_cell (arr_get a square).
Proof.
  intros (Hlen & _ & Hcells) Hs. unfold arr_get.
  rewrite is_array_index_cell by done.
  destruct (lookup_lt_is_Some_2 (elems a) (Z.to_nat square)) as [v Hv]; [lia|].
  rewrite Hv. simpl. by eapply Forall_lookup_1.
Qed.

(** Writing a cell value into a cell of a board gives a board. *)
Lemma is_board_set a square m :
  is_board a → (0 ≤ square ≤ 8)%Z → is_cell m → is_board (arr_set a square m).
Proof.
  intros (Hlen & Hprops & Hcells) Hs Hm. unfold arr_set.
  rewrite is_array_index_cell by done.
  destruct (decide _) as [_|Hge]; [|lia].
  split_and!; simpl; [by rewrite length_insert|done|by apply Forall_insert].
Qed.

(** Taking an empty cell adds one mark. *)
Lemma marks_set a square m :
  is_board a → (0 ≤ square ≤ 8)%Z → arr_get a square = Null → truthy m = true →
  marks (arr_set a square m) = S (marks a).
Proof.
  intros (Hlen & _ & _) Hs Hnull Hm. unfold marks, arr_set, arr_get in *.
  rewrite is_array_index_cell in * by done.
  destruct (decide _) as [Hlt|Hge]; [|lia]. simpl.
  destruct (lookup_lt_is_Some_2 (elems a) (Z.to_nat square)) as [v Hv]; [lia|].
  rewrite Hv in Hnull. simpl in Hnull. subst v.
  rewrite insert_take_drop by done.
  rewrite <-(take_drop_middle _ _ _ Hv) at 3.
  rewrite !filter_app, !filter_cons, !length_app.
  repeat case_decide; try done; rewrite ?length_cons; lia.
Qed.

Lemma marks_bound a : marks a ≤ length (elems a).
Proof. apply length_filter. Qed.

Lemma marks_empty : marks (Array_fill 9 Null) = 0.
Proof. reflexivity. Qed.

(** A board is full when it has nine marks. *)
Lemma every_truthy_marks a : is_board a → every truthy a = true ↔ marks a = 9.
Proof.
  intros (Hlen & _ & _). unfold every, marks. rewrite <-Hlen. clear Hlen.
  induction (elems a) as [|v l IH]; simpl; [done|].
  rewrite filter_cons. pose proof (length_filter (λ v, truthy v = true) l) as Hle.
  case_decide as Hv.
  - rewrite Hv. simpl. rewrite IH. lia.
  - apply not_true_is_false in Hv. rewrite Hv. simpl. split; [done|lia].
Qed.

End boards.

(** ** What the [useReducer] game keeps true *)

Section game.
Implicit Types (st : state) (a : action.t) (square : Z).

Lemma calculateWinner_falsy (squares : operand) :
  truthy (calculateWinner squares) = false → calculateWinner squares = Null.
Proof.
  intros Hf. unfold calculateWinner in *.
  destruct (first_passing_line squares lines)
    as [(before & l & after & Hlines & Hbefore & Hl)|Hnone].
  - rewrite Hlines, calculateWinner_loop_first in Hf by done.
    apply line_test_true in Hl as [Ht _]. congruence.
  - by apply calculateWinner_loop_none.
Qed.

Lemma even_of_nat (n : nat) : Z.even (Z.of_nat n) = Nat.even n.
Proof.
  induction n as [n IH] using lt_wf_ind.
  destruct n as [|[|n]]; [done..|].
  rewrite !Nat2Z.inj_succ, Z.even_succ_succ, Nat.even_succ_succ. apply IH. lia.
Qed.

Lemma xIsNext_nat st :
  (0 ≤ stepNumber st)%Z → xIsNext st = Nat.even (Z.to_nat (stepNumber st)).
Proof.
  intros Hc. rewrite xIsNext_even, <-even_of_nat. f_equal. lia.
Qed.

(** The buttons of a rendered game dispatch a move on one of the nine cells
    or a jump to an entry of the history. *)
Lemma Game_dispatches_inv st a :
  a ∈ Game.dispatches st →
  (∃ square, (0 ≤ square ≤ 8)%Z ∧ a = SELECT_SQUARE square)
  ∨ (∃ i, i < length (history st) ∧ a = SET_STEPNUMBER (Z.of_nat i)).
Proof.
  unfold Game.dispatches. destruct (Game.current st) as [current|]; [|by intros ?%elem_of_nil].
  intros [Hsel|Hjump]%elem_of_app.
  - left. simpl in Hsel.
    repeat (apply elem_of_cons in Hsel as [->|Hsel]; [eexists; split; [|done]; lia|]).
    by apply elem_of_nil in Hsel.
  - right. apply list_elem_of_fmap in Hjump as ([desc a'] & -> & Hin).
    unfold Game.moves in Hin. apply elem_of_lookup_imap in Hin as (i & s & Heq & Hi).
    injection Heq as _ ->. exists i. split; [|done]. by eapply lookup_lt_Some.
Qed.

(** The entries of the history that a move returns. *)
Lemma lookup_after_move st current square st' (i : nat) :
  cursor_in_range st →
  boardReducer st (SELECT_SQUARE square) = Return st' →
  history st !! Z.to_nat (stepNumber st) = Some current →
  length (history st') = S (S (Z.to_nat (stepNumber st))) ∧
  stepNumber st' = (stepNumber st + 1)%Z ∧
  guard current square = false ∧
  history st' !! i =
    if decide (i ≤ Z.to_nat (stepNumber st)) then history st !! i
    else if decide (i = S (Z.to_nat (stepNumber st)))
         then Some (next_snapshot st current square) else None.
Proof.
  intros Hc (current' & Hlast & Hg & Hh & Hs)%boardReducer_returns Hcur.
  unfold cursor_in_range in Hc.
  rewrite last_slice0_cursor, Hcur in Hlast by done. injection Hlast as <-.
  rewrite slice0_cursor in Hh by done.
  assert (length (take (S (Z.to_nat (stepNumber st))) (history st))
          = S (Z.to_nat (stepNumber st))) as Hlen by (rewrite length_take; lia).
  split_and!; [|done..|].
  - rewrite Hh, length_app, Hlen. simpl. lia.
  - rewrite Hh. repeat case_decide.
    + rewrite lookup_app_l by lia. apply lookup_take_lt. lia.
    + subst i. rewrite <-Hlen at 1. by rewrite list_lookup_middle.
    + apply lookup_ge_None_2. rewrite length_app, Hlen. simpl. lia.
Qed.

Lemma game_invariant_initial : game_invariant initialState.
Proof.
  split.
  - unfold cursor_in_range. simpl. lia.
  - done.
  - constructor; [apply is_board_empty|constructor].
  - intros i s s' _ Hs'. by destruct i.
  - intros i s Hi. simpl in Hi. lia.
Qed.

Lemma game_invariant_jump st (i : nat) :
  game_invariant st → i < length (history st) →
  game_invariant {| history := history st; stepNumber := Z.of_nat i |}.
Proof.
  intros [Hc H0 Hb Hsucc Hund] Hi. split; try done.
  unfold cursor_in_range. simpl. lia.
Qed.

Lemma game_invariant_move st square st' :
  game_invariant st → (0 ≤ square ≤ 8)%Z →
  boardReducer st (SELECT_SQUARE square) = Return st' →
  game_invariant st'.
Proof.
  intros [Hc H0 Hb Hsucc Hund] Hsq Hstep.
  pose proof Hc as Hc'. unfold cursor_in_range in Hc'.
  destruct (lookup_lt_is_Some_2 (history st) (Z.to_nat (stepNumber st)))
    as [current Hcur]; [lia|].
  assert (is_board (squares current)) as Hboard.
  { by apply (Forall_lookup_1 _ _ _ _ Hb Hcur). }
  assert (spread (squares current) = squares current) as Hspread.
  { apply spread_board, Hboard. }
  pose proof (λ i, lookup_after_move st current square st' i Hc Hstep Hcur) as Hlook.
  destruct (Hlook 0) as (Hlen & Hs & Hg & _).
  rewrite guard_or in Hg. apply orb_false_iff in Hg as [Hwin Hfree].
  rewrite Hspread in Hfree.
  assert (squares (next_snapshot st current square)
          = arr_set (squares current) square (mark (Nat.even (Z.to_nat (stepNumber st)))))
    as Hnext.
  { unfold next_snapshot. simpl. rewrite Hspread, xIsNext_nat; [done|lia]. }
  split.
  - unfold cursor_in_range. lia.
  - destruct (Hlook 0) as (_ & _ & _ & ->). by rewrite decide_True by lia.
  - apply Forall_lookup_2. intros i s Hi.
    destruct (Hlook i) as (_ & _ & _ & Hi'). rewrite Hi' in Hi.
    repeat case_decide; simplify_eq.
    + by apply (Forall_lookup_1 _ _ _ _ Hb Hi).
    + rewrite Hnext. apply is_board_set; [done..|apply is_cell_mark].
  - intros i s s' Hi HSi.
    destruct (Hlook i) as (_ & _ & _ & Hi'). rewrite Hi' in Hi.
    destruct (Hlook (S i)) as (_ & _ & _ & HSi'). rewrite HSi' in HSi.
    repeat case_decide; simplify_eq; try lia.
    + by apply (Hsucc i).
    + exists square. split; [done|]. split; [|done].
      apply is_cell_falsy; [by apply is_board_get|done].
  - intros i s Hi Hs'.
    destruct (Hlook i) as (_ & _ & _ & Hi'). rewrite Hi' in Hs'.
    repeat case_decide; simplify_eq; try lia.
    destruct (decide (i = Z.to_nat (stepNumber st))) as [->|Hne].
    + rewrite Hcur in Hs'. injection Hs' as <-. by apply calculateWinner_falsy.
    + apply (Hund i); [lia|done].
Qed.

Lemma played_invariant st : Game.played st → game_invariant st.
Proof.
  induction 1 as [|st a st' _ IH Ha Hstep]; [apply game_invariant_initial|].
  apply Game_dispatches_inv in Ha as [(square & Hsq & ->)|(i & Hi & ->)].
  - by apply (game_invariant_move st square).
  - injection Hstep as <-. by apply game_invariant_jump.
Qed.

End game.

Section game_facts.
Implicit Types (st : state) (s : snapshot) (square : Z).

(** Entry [i] of the history holds [i] marks. *)
Lemma invariant_marks st (i : nat) s :
  game_invariant st → history st !! i = Some s → marks (squares s) = i.
Proof.
  intros [_ H0 Hb Hsucc _]. revert s.
  induction i as [|i IH]; intros s Hs.
  - rewrite H0 in Hs. by injection Hs as <-.
  - destruct (lookup_lt_is_Some_2 (history st) i) as [s0 Hs0].
    { apply lookup_lt_Some in Hs. lia. }
    destruct (Hsucc i s0 s Hs0 Hs) as (square & Hsq & Hnull & ->).
    rewrite marks_set, (IH s0) by
      (done || apply truthy_mark || by apply (Forall_lookup_1 _ _ _ _ Hb Hs0)).
    done.
Qed.

(** A game has at most nine moves. *)
Lemma invariant_length st : game_invariant st → length (history st) ≤ 10.
Proof.
  intros Hinv. destruct (decide (length (history st) ≤ 10)) as [|Hlong]; [done|].
  destruct (lookup_lt_is_Some_2 (history st) 10) as [s Hs]; [lia|].
  pose proof (invariant_marks st 10 s Hinv Hs) as Hmarks.
  pose proof (marks_bound (squares s)) as Hbound.
  destruct Hinv as [_ _ Hb _ _].
  destruct (Forall_lookup_1 _ _ _ _ Hb Hs) as (Hlen & _). lia.
Qed.

(** In a state that satisfies the invariant, the render finds its current
    entry. *)
Lemma Game_current_invariant st :
  game_invariant st →
  ∃ s, Game.current st = Some s ∧ history st !! Z.to_nat (stepNumber st) = Some s.
Proof.
  intros Hinv. pose proof (invariant_length st Hinv) as Hlen.
  destruct Hinv as [Hc _ _ _ _]. unfold cursor_in_range in Hc.
  destruct (lookup_lt_is_Some_2 (history st) (Z.to_nat (stepNumber st))) as [s Hs]; [lia|].
  exists s. split; [|done]. unfold Game.current.
  replace (is_array_index (stepNumber st)) with true; [done|].
  symmetry. apply bool_decide_eq_true. lia.
Qed.

End game_facts.

Section game_clicks.
Implicit Types (st : state) (s : snapshot) (square : Z).

Lemma Game_dispatches_select st square :
  game_invariant st → (0 ≤ square ≤ 8)%Z → SELECT_SQUARE square ∈ Game.dispatches st.
Proof.
  intros (s & Hs & _)%Game_current_invariant Hsq.
  unfold Game.dispatches. rewrite Hs. apply elem_of_app. left. simpl.
  assert (square ∈ [0; 1; 2; 3; 4; 5; 6; 7; 8]%Z) as Hin.
  { assert (square = 0 ∨ square = 1 ∨ square = 2 ∨ square = 3 ∨ square = 4
            ∨ square = 5 ∨ square = 6 ∨ square = 7 ∨ square = 8)%Z
      as Hcases by lia.
    repeat (destruct Hcases as [->|Hcases]; [repeat constructor|]).
    subst. repeat constructor. }
  by apply (list_elem_of_fmap_2 SELECT_SQUARE) in Hin.
Qed.

Lemma Game_dispatches_jump st (i : nat) :
  game_invariant st → i < length (history st) →
  SET_STEPNUMBER (Z.of_nat i) ∈ Game.dispatches st.
Proof.
  intros (s & Hs & _)%Game_current_invariant Hi.
  unfold Game.dispatches. rewrite Hs. apply elem_of_app. right.
  destruct (lookup_lt_is_Some_2 (history st) i Hi) as [si Hsi].
  apply list_elem_of_fmap. eexists. split; [|by eapply elem_of_lookup_imap_2]. done.
Qed.

(** A run of accepted moves on the nine cells is a run of clicks. *)
Lemma played_play st (moves : list Z) st' :
  Game.played st → Forall (λ square, 0 ≤ square ≤ 8)%Z moves →
  play st moves = Some st' → Game.played st'.
Proof.
  intros Hst Hmoves. revert st Hst.
  induction Hmoves as [|square moves Hsq _ IH]; intros st Hst Hplay; simpl in Hplay.
  - by injection Hplay as <-.
  - destruct (boardReducer st (SELECT_SQUARE square)) as [st1| |] eqn:Hstep; try done.
    apply (IH st1); [|done].
    apply (Game.played_dispatch st (SELECT_SQUARE square)); [done| |done].
    apply Game_dispatches_select; [by apply played_invariant|done].
Qed.

Lemma played_top_row_game : Game.played {| history := top_row_game; stepNumber := 5 |}.
Proof.
  apply (played_play initialState [0; 4; 1; 8; 2]%Z); [constructor| |done].
  repeat constructor; lia.
Qed.

End game_clicks.

(** X1. In every state that the [Game] is in after clicks on its rendered
    buttons that the reducer accepted, returning a state for each, the cursor
    is the index of an entry, the first entry is the empty board, and every
    entry is a board of nine cells, each [null], ['X'] or ['O'], with no other
    property; there are at most ten entries. *)
Theorem Game_played_boards (st : state) :
  Game.played st →
  cursor_in_range st ∧
  history st !! 0 = Some {| squares := Array_fill 9 Null |} ∧
  Forall (λ s, is_board (squares s)) (history st) ∧
  length (history st) ≤ 10.
Proof.
  intros Hinv%played_invariant. pose proof (invariant_length st Hinv).
  by destruct Hinv.
Qed.

Lemma Game_played_boards_witness :
  let st := {| history := top_row_game; stepNumber := 5 |} in
  cursor_in_range st ∧
  history st !! 0 = Some {| squares := Array_fill 9 Null |} ∧
  Forall (λ s, is_board (squares s)) (history st) ∧
  length (history st) ≤ 10.
Proof.
  apply (Game_played_boards {| history := top_row_game; stepNumber := 5 |}).
  apply played_top_row_game.
Defined.

(** X2. In every such state the entries of the history follow one another by
    one move each: entry [i + 1] is entry [i] with one of its empty cells
    taken, by X when [i] is even and by O when [i] is odd; so entry [i] holds
    exactly [i] marks. *)
Theorem Game_played_successive (st : state) :
  Game.played st →
  successive (history st) ∧
  ∀ (i : nat) s, history st !! i = Some s → marks (squares s) = i.
Proof.
  intros Hinv%played_invariant. split; [by destruct Hinv|].
  intros i s. by apply invariant_marks.
Qed.

Lemma Game_played_successive_witness :
  let st := {| history := top_row_game; stepNumber := 5 |} in
  successive (history st) ∧
  ∀ (i : nat) s, history st !! i = Some s → marks (squares s) = i.
Proof.
  apply (Game_played_successive {| history := top_row_game; stepNumber := 5 |}).
  apply played_top_row_game.
Defined.

Section winner_moved_last.
Implicit Types (st : state) (s : snapshot) (a : jsarray) (square : Z).

Lemma lines_on_board (l : Z * Z * Z) :
  l ∈ lines → (0 ≤ l.1.1 ≤ 8 ∧ 0 ≤ l.1.2 ≤ 8 ∧ 0 ≤ l.2 ≤ 8)%Z.
Proof.
  unfold lines. intros Hl.
  repeat (apply elem_of_cons in Hl as [->|Hl]; [simpl; lia|]).
  by apply elem_of_nil in Hl.
Qed.

(** A move outside a line leaves the test of that line as it was. *)
Lemma line_test_set_other a square v (l : Z * Z * Z) :
  length (elems a) = 9 → l ∈ lines →
  square ≠ l.1.1 → square ≠ l.1.2 → square ≠ l.2 →
  line_test (arr_set a square v) l = line_test a l.
Proof.
  intros Hlen Hl%lines_on_board H1 H2 H3. destruct l as [[x y] z]. simpl in *.
  unfold line_test, get. rewrite !arr_get_set_ne; first [done|lia].
Qed.

(** A line that a move completes holds the mark of that move. *)
Lemma new_winner_is_mover a square v :
  length (elems a) = 9 →
  calculateWinner a = Null →
  truthy (calculateWinner (arr_set a square v)) = true →
  calculateWinner (arr_set a square v) = v.
Proof.
  intros Hlen Hnone Hwin. unfold calculateWinner in *.
  destruct (first_passing_line (arr_set a square v) lines)
    as [(before & l & after & Hlines & Hbefore & Hl)|Hnone'];
    [|by rewrite calculateWinner_loop_none in Hwin].
  rewrite Hlines, calculateWinner_loop_first by done.
  assert (l ∈ lines) as Hin.
  { rewrite Hlines. apply elem_of_app. right. by left. }
  pose proof Hl as (_ & _ & H2 & H3)%line_test_true.
  destruct (decide (square = l.1.1)) as [->|H1']; [apply arr_get_set_eq|].
  destruct (decide (square = l.1.2)) as [->|H2'].
  { rewrite <-H2. apply arr_get_set_eq. }
  destruct (decide (square = l.2)) as [->|H3'].
  { rewrite <-H3. apply arr_get_set_eq. }
  assert (truthy (calculateWinner_loop a lines) = true) as Hold.
  { apply calculateWinner_truthy. exists l. split; [done|].
    by rewrite <-(line_test_set_other a square v). }
  by rewrite Hnone in Hold.
Qed.

(** In a state that satisfies the invariant, a winner on the current board
    means that the cursor is on the last entry, that at least one move was
    made, and that the winner is who moved last. *)
Lemma invariant_winner st s :
  game_invariant st →
  Game.current st = Some s →
  truthy (calculateWinner (squares s)) = true →
  stepNumber st = (Z.of_nat (length (history st)) - 1)%Z ∧
  calculateWinner (squares s) = mark (negb (xIsNext st)).
Proof.
  intros Hinv Hcur Hwin.
  destruct (Game_current_invariant st Hinv) as (s' & Hcur' & Hs).
  rewrite Hcur in Hcur'. injection Hcur' as <-.
  pose proof Hinv as [Hc H0 Hb Hsucc Hund]. unfold cursor_in_range in Hc.
  split.
  - destruct (decide (S (Z.to_nat (stepNumber st)) < length (history st))) as [Hmid|]; [|lia].
    rewrite (Hund _ s Hmid Hs) in Hwin. done.
  - destruct (Z.to_nat (stepNumber st)) as [|i] eqn:Hi.
    { rewrite H0 in Hs. by injection Hs as <-. }
    destruct (lookup_lt_is_Some_2 (history st) i) as [s0 Hs0].
    { apply lookup_lt_Some in Hs. lia. }
    destruct (Hsucc i s0 s Hs0 Hs) as (square & Hsq & Hnull & Heq).
    rewrite Heq in Hwin |- *.
    rewrite new_winner_is_mover; [| |apply (Hund i s0)|done]; try done.
    + rewrite xIsNext_nat, Hi by lia. by rewrite Nat.even_succ, <-Nat.negb_even, negb_involutive.
    + apply (Forall_lookup_1 _ _ _ _ Hb Hs0).
    + apply lookup_lt_Some in Hs. lia.
Qed.

End winner_moved_last.

(** X3. In every state that clicks lead to, a winner on the current board
    means that the cursor is on the last entry of the history and that the
    winner is the player who moved last: O when X is next, X when O is next.
    Every earlier entry has no winner. *)
Theorem Game_winner_moved_last (st : state) (s : snapshot) :
  Game.played st →
  Game.current st = Some s →
  truthy (calculateWinner (squares s)) = true →
  stepNumber st = (Z.of_nat (length (history st)) - 1)%Z ∧
  calculateWinner (squares s) = mark (negb (xIsNext st)) ∧
  ∀ (i : nat) s', S i < length (history st) → history st !! i = Some s' →
    calculateWinner (squares s') = Null.
Proof.
  intros Hinv%played_invariant Hcur Hwin.
  destruct (invariant_winner st s Hinv Hcur Hwin) as [Hlast Hmover].
  split_and!; [done..|]. by destruct Hinv.
Qed.

Lemma Game_winner_moved_last_witness :
  let st := {| history := top_row_game; stepNumber := 5 |} in
  let s := board_of [markX; markX; markX; Null; markO; Null; Null; Null; markO] in
  stepNumber st = (Z.of_nat (length (history st)) - 1)%Z ∧
  calculateWinner (squares s) = mark (negb (xIsNext st)) ∧
  ∀ (i : nat) s', S i < length (history st) → history st !! i = Some s' →
    calculateWinner (squares s') = Null.
Proof.
  apply (Game_winner_moved_last {| history := top_row_game; stepNumber := 5 |}
           (board_of [markX; markX; markX; Null; markO; Null; Null; Null; markO])).
  - apply played_top_row_game.
  - reflexivity.
  - reflexivity.
Defined.

(** X4. In every state that the [Game] is in after clicks that the reducer
    accepted, returning a state for each, the status line is computed without
    a throw, and it is decided by the winner and the cursor alone: it names
    as winner the player who moved last; without a winner it says
    "Scratch: Cat's game" exactly when the cursor is 9, and otherwise names
    the player whose turn the parity of the cursor gives. (After a click that
    the reducer stops there is no state to render: see C1.) *)
Theorem Game_status_played (st : state) :
  Game.played st →
  ∃ s, Game.current st = Some s ∧
    Game.status st = Normal
      (if truthy (calculateWinner (squares s))
       then "Winner: " ++ (if xIsNext st then "O" else "X")
       else if (stepNumber st =? 9)%Z then "Scratch: Cat's game"
       else "Next player: " ++ (if xIsNext st then "X" else "O"))%string.
Proof.
  intros Hinv%played_invariant.
  destruct (Game_current_invariant st Hinv) as (s & Hcur & Hs).
  exists s. split; [done|]. unfold Game.status. rewrite Hcur. cbn zeta.
  destruct (truthy (calculateWinner (squares s))) eqn:Hwin.
  - destruct (invariant_winner st s Hinv Hcur Hwin) as [_ ->].
    by destruct (xIsNext st).
  - assert (is_board (squares s)) as Hboard.
    { destruct Hinv as [_ _ Hb _ _]. apply (Forall_lookup_1 _ _ _ _ Hb Hs). }
    pose proof (every_truthy_marks (squares s) Hboard) as Hfull.
    rewrite (invariant_marks st _ s Hinv Hs) in Hfull.
    destruct Hinv as [Hc _ _ _ _]. unfold cursor_in_range in Hc.
    destruct (Z.eqb_spec (stepNumber st) 9) as [H9|H9].
    + by rewrite (proj2 Hfull) by lia.
    + destruct (every truthy (squares s)); [|done].
      destruct Hfull as [Hfull _]. specialize (Hfull eq_refl). lia.
Qed.

Lemma Game_status_played_witness :
  let st := {| history := top_row_game; stepNumber := 5 |} in
  ∃ s, Game.current st = Some s ∧
    Game.status st = Normal
      (if truthy (calculateWinner (squares s))
       then "Winner: " ++ (if xIsNext st then "O" else "X")
       else if (stepNumber st =? 9)%Z then "Scratch: Cat's game"
       else "Next player: " ++ (if xIsNext st then "X" else "O"))%string.
Proof.
  apply (Game_status_played {| history := top_row_game; stepNumber := 5 |}).
  apply played_top_row_game.
Defined.

(** ** How calls of the reducer compose *)

Section composition.
Implicit Types (st : state) (s : snapshot) (square : Z).

(** The state that a move returns, the cursor being on an entry. *)
Lemma boardReducer_returned st square st' :
  cursor_in_range st →
  boardReducer st (SELECT_SQUARE square) = Return st' →
  ∃ current,
    history st !! Z.to_nat (stepNumber st) = Some current ∧
    guard current square = false ∧
    st' = {| history := take (S (Z.to_nat (stepNumber st))) (history st)
                          ++ [next_snapshot st current square];
             stepNumber := stepNumber st + 1 |}.
Proof.
  intros Hc Hstep. pose proof Hc as Hc'. unfold cursor_in_range in Hc'.
  destruct (lookup_lt_is_Some_2 (history st) (Z.to_nat (stepNumber st)))
    as [current Hcur]; [lia|].
  exists current. split; [done|].
  destruct (guard current square) eqn:Hg.
  - by rewrite (boardReducer_rejects st current) in Hstep.
  - rewrite (boardReducer_accepts st current) in Hstep by done.
    by injection Hstep as <-.
Qed.

(** After a move the cursor is on the new last entry, which is the new
    snapshot. *)
Lemma after_move st current square :
  cursor_in_range st →
  let st' := {| history := take (S (Z.to_nat (stepNumber st))) (history st)
                             ++ [next_snapshot st current square];
                stepNumber := stepNumber st + 1 |} in
  cursor_in_range st' ∧
  history st' !! Z.to_nat (stepNumber st') = Some (next_snapshot st current square).
Proof.
  intros Hc. unfold cursor_in_range in *. simpl.
  assert (length (take (S (Z.to_nat (stepNumber st))) (history st))
          = S (Z.to_nat (stepNumber st))) as Hlen by (rewrite length_take; lia).
  split.
  - rewrite length_app, Hlen. simpl. lia.
  - replace (Z.to_nat (stepNumber st + 1)) with (S (Z.to_nat (stepNumber st))) by lia.
    rewrite <-Hlen at 1. by rewrite list_lookup_middle.
Qed.

(** When is the kept part of the history empty. *)
Lemma slice0_nil {A} (l : list A) (e : Z) :
  slice0 l e = [] ↔ l = [] ∨ e = 0%Z ∨ (e ≤ - Z.of_nat (length l))%Z.
Proof.
  unfold slice0. destruct l as [|x l].
  { rewrite take_nil. split; [by left|done]. }
  rewrite length_cons.
  assert (∀ n : nat, take n (x :: l) = [] ↔ n = 0) as Htake.
  { intros [|n]; simpl; split; done. }
  rewrite Htake. destruct (Z.ltb_spec e 0); split.
  - intros Hz. right. right. lia.
  - intros [Hl|[He|He]]; [done|lia|lia].
  - intros Hz. right. left. lia.
  - intros [Hl|[He|He]]; [done|lia|lia].
Qed.

End composition.

(** X5. Undo and redo. If a move is accepted in a state whose cursor is on an
    entry, then jumping back to that entry keeps the history, and making the
    same move there returns the very state that the move returned the first
    time. *)
Theorem undo_then_same_move (st st1 : state) (square : Z) :
  cursor_in_range st →
  boardReducer st (SELECT_SQUARE square) = Return st1 →
  let back := {| history := history st1; stepNumber := stepNumber st |} in
  boardReducer st1 (SET_STEPNUMBER (stepNumber st)) = Return back ∧
  history back !! Z.to_nat (stepNumber back) = history st !! Z.to_nat (stepNumber st) ∧
  boardReducer back (SELECT_SQUARE square) = Return st1.
Proof.
  intros Hc (current & Hcur & Hg & ->)%boardReducer_returned; [|done].
  pose proof Hc as Hc'. unfold cursor_in_range in Hc'.
  assert (length (take (S (Z.to_nat (stepNumber st))) (history st))
          = S (Z.to_nat (stepNumber st))) as Hlen by (rewrite length_take; lia).
  cbn [history stepNumber].
  assert ((take (S (Z.to_nat (stepNumber st))) (history st)
             ++ [next_snapshot st current square]) !! Z.to_nat (stepNumber st)
          = Some current) as Hback.
  { rewrite lookup_app_l by lia. rewrite lookup_take_lt by lia. done. }
  split_and!; [done|by rewrite Hback|].
  rewrite (boardReducer_accepts _ current); [|unfold cursor_in_range; simpl|done..].
  - cbn [history stepNumber]. by rewrite take_app_length' by done.
  - rewrite length_app, Hlen. simpl. lia.
Qed.

Lemma undo_then_same_move_witness :
  let st := {| history := take 2 top_row_game; stepNumber := 1 |} in
  let st1 := {| history := take 3 top_row_game; stepNumber := 2 |} in
  let back := {| history := history st1; stepNumber := stepNumber st |} in
  boardReducer st1 (SET_STEPNUMBER (stepNumber st)) = Return back ∧
  history back !! Z.to_nat (stepNumber back) = history st !! Z.to_nat (stepNumber st) ∧
  boardReducer back (SELECT_SQUARE 4) = Return st1.
Proof.
  apply (undo_then_same_move
           {| history := take 2 top_row_game; stepNumber := 1 |}
           {| history := take 3 top_row_game; stepNumber := 2 |} 4).
  - unfold cursor_in_range. simpl. lia.
  - reflexivity.
Defined.

(** X6. A square is taken once. If a move on an array index is accepted in a
    state whose cursor is on an entry, the same move on the state it returns
    is stopped by the guard: the reducer ends in the bare [return]. *)
Theorem same_square_twice (st st1 : state) (square : Z) :
  cursor_in_range st →
  is_array_index square = true →
  boardReducer st (SELECT_SQUARE square) = Return st1 →
  boardReducer st1 (SELECT_SQUARE square) = ReturnUndefined.
Proof.
  intros Hc Hi (current & Hcur & Hg & ->)%boardReducer_returned; [|done].
  destruct (after_move st current square Hc) as [Hc1 Hcur1].
  apply (boardReducer_rejects _ _ _ Hc1 Hcur1).
  rewrite guard_or, arr_get_spread by done.
  unfold next_snapshot. simpl. rewrite arr_get_set_eq, truthy_mark.
  apply orb_true_r.
Qed.

Lemma same_square_twice_witness :
  boardReducer {| history := take 3 top_row_game; stepNumber := 2 |} (SELECT_SQUARE 4)
  = ReturnUndefined.
Proof.
  apply (same_square_twice {| history := take 2 top_row_game; stepNumber := 1 |}
           {| history := take 3 top_row_game; stepNumber := 2 |} 4).
  - unfold cursor_in_range. simpl. lia.
  - reflexivity.
  - reflexivity.
Defined.

(** X7. A move on a key that is no array index (a negative number) takes no
    cell. If it is accepted, the new snapshot has the elements of the current
    one, the mark being stored as a property beside them, while the cursor
    and with it the turn move on; the copy that the next call makes drops that
    property, so the same key is accepted again. *)
Theorem no_index_passes_the_turn (st st1 : state) (square : Z) :
  cursor_in_range st →
  is_array_index square = false →
  boardReducer st (SELECT_SQUARE square) = Return st1 →
  ∃ current new st2,
    history st !! Z.to_nat (stepNumber st) = Some current ∧
    last (history st1) = Some new ∧
    elems (squares new) = elems (squares current) ∧
    props (squares new) !! square = Some (mark (xIsNext st)) ∧
    xIsNext st1 = negb (xIsNext st) ∧
    boardReducer st1 (SELECT_SQUARE square) = Return st2.
Proof.
  intros Hc Hi (current & Hcur & Hg & ->)%boardReducer_returned; [|done].
  destruct (after_move st current square Hc) as [Hc1 Hcur1].
  assert (elems (squares (next_snapshot st current square)) = elems (squares current))
    as Helems.
  { unfold next_snapshot, arr_set. simpl. by rewrite Hi. }
  exists current, (next_snapshot st current square). eexists.
  split_and!; [done|cbn [history]; by rewrite last_snoc|done| |by apply xIsNext_succ|].
  - unfold next_snapshot, arr_set. simpl. rewrite Hi. simpl. apply lookup_insert_eq.
  - apply (boardReducer_accepts _ _ _ Hc1 Hcur1).
    rewrite guard_or in Hg |- *. apply orb_false_iff in Hg as [Hwin _].
    rewrite arr_get_spread_no_index by done.
    rewrite <-calculateWinner_spread. unfold spread. rewrite Helems.
    fold (spread (squares current)). by rewrite calculateWinner_spread, Hwin.
Qed.

Lemma no_index_passes_the_turn_witness :
  let st := initialState in
  let st1 := {| history := history initialState ++ [next_snapshot st (board_of (replicate 9 Null)) (-1)];
                stepNumber := 1 |} in
  ∃ current new st2,
    history st !! Z.to_nat (stepNumber st) = Some current ∧
    last (history st1) = Some new ∧
    elems (squares new) = elems (squares current) ∧
    props (squares new) !! (-1)%Z = Some (mark (xIsNext st)) ∧
    xIsNext st1 = negb (xIsNext st) ∧
    boardReducer st1 (SELECT_SQUARE (-1)) = Return st2.
Proof.
  apply (no_index_passes_the_turn initialState
           {| history := history initialState
                ++ [next_snapshot initialState (board_of (replicate 9 Null)) (-1)];
              stepNumber := 1 |} (-1)).
  - unfold cursor_in_range. simpl. lia.
  - reflexivity.
  - reflexivity.
Defined.

(** X8. [SELECT_SQUARE] throws in one case only: when no entry of the history
    is kept, [current] is [undefined] and reading its squares is a
    [TypeError]. That is so exactly when the history is empty, the cursor is
    -1, or the cursor is below minus the length of the history; any other
    negative cursor counts from the end and the move goes through or is
    stopped as usual. *)
Theorem SELECT_SQUARE_throws (st : state) (square : Z) :
  (boardReducer st (SELECT_SQUARE square) = Throw TypeError ↔
     history st = [] ∨ stepNumber st = (-1)%Z
     ∨ (stepNumber st < - Z.of_nat (length (history st)))%Z) ∧
  ∀ e, boardReducer st (SELECT_SQUARE square) = Throw e → e = TypeError.
Proof.
  rewrite boardReducer_SELECT_SQUARE.
  pose proof (slice0_nil (history st) (stepNumber st + 1)) as Hnil.
  destruct (last (slice0 (history st) (stepNumber st + 1))) as [current|] eqn:Hlast.
  - split.
    + split; [by destruct (guard current square)|].
      intros Hcase. assert (slice0 (history st) (stepNumber st + 1) = []) as Hempty.
      { apply Hnil. destruct Hcase as [|[|]]; [by left|right; left; lia|right; right; lia]. }
      by rewrite Hempty in Hlast.
    + intros e. by destruct (guard current square).
  - apply last_None in Hlast. split.
    + split; [|done]. intros _. apply Hnil in Hlast as [|[|]]; [by left|right; left; lia|right; right; lia].
    + by intros e [= <-].
Qed.

(** X9. The list of moves has one button per entry of the history. The
    button of entry [i] is labelled "Go to game start" for the first entry
    and "Go to move #i" for the others, and the action it dispatches makes
    the reducer return the same history with the cursor on entry [i]. *)
Theorem Game_moves_jump (st : state) (i : nat) (desc : string) (a : action.t) :
  Game.moves st !! i = Some (desc, a) →
  length (Game.moves st) = length (history st) ∧
  i < length (history st) ∧
  desc = (if decide (i = 0) then "Go to game start"
          else "Go to move #" ++ pretty i)%string ∧
  boardReducer st a = Return {| history := history st; stepNumber := Z.of_nat i |}.
Proof.
  unfold Game.moves. intros (s & Hs & Heq)%list_lookup_imap_Some.
  injection Heq as -> ->.
  split_and!; [apply length_imap|by eapply lookup_lt_Some|done..].
Qed.

Lemma Game_moves_jump_witness :
  let st := {| history := top_row_game; stepNumber := 5 |} in
  length (Game.moves st) = length (history st) ∧
  2 < length (history st) ∧
  "Go to move #2"%string = (if decide (2 = 0) then "Go to game start"
          else "Go to move #" ++ pretty 2)%string ∧
  boardReducer st (SET_STEPNUMBER 2) = Return {| history := history st; stepNumber := 2 |}.
Proof.
  apply (Game_moves_jump {| history := top_row_game; stepNumber := 5 |} 2
           "Go to move #2" (SET_STEPNUMBER 2)).
  reflexivity.
Defined.

(** ** The boards that keep their state in [useState] *)

Section useState_boards.
Implicit Types (b : board) (square : Z).

Lemma Hooks_selectSquare_cases b square :
  (truthy (calculateWinner (board_squares b)) || truthy (arr_get (board_squares b) square)
     = true ∧ Hooks.selectSquare b square = b)
  ∨ (truthy (calculateWinner (board_squares b)) = false
     ∧ truthy (arr_get (board_squares b) square) = false
     ∧ Hooks.selectSquare b square = place b square).
Proof.
  unfold Hooks.selectSquare. rewrite truthy_js_or.
  destruct (_ || _) eqn:Hg; [by left|].
  apply orb_false_iff in Hg as [? ?]. by right.
Qed.

Lemma AdvancedState_selectSquare_cases b square :
  (truthy (arr_get (board_squares b) square) = true
     ∧ AdvancedState.selectSquare b square = b)
  ∨ (truthy (arr_get (board_squares b) square) = false
     ∧ AdvancedState.selectSquare b square = place b square).
Proof.
  unfold AdvancedState.selectSquare. rewrite truthy_js_or, calculateWinner_Num. simpl.
  destruct (truthy _) eqn:Hg; [by left|by right].
Qed.

Lemma place_occupied b square : truthy (arr_get (board_squares (place b square)) square) = true.
Proof. unfold place. simpl. by rewrite arr_get_set_eq, truthy_mark. Qed.

End useState_boards.

(** X10. Clicking the same square twice is the same as clicking it once, for
    the hooks [Board] and for the "Advanced State" [Board], whatever the
    board and the key: the first click either changes nothing or leaves a
    mark under that key, which stops the second. *)
Theorem selectSquare_twice (b : board) (square : Z) :
  Hooks.selectSquare (Hooks.selectSquare b square) square = Hooks.selectSquare b square ∧
  AdvancedState.selectSquare (AdvancedState.selectSquare b square) square
    = AdvancedState.selectSquare b square.
Proof.
  split.
  - destruct (Hooks_selectSquare_cases b square) as [[_ Hsame]|(_ & _ & Hplace)].
    + by rewrite !Hsame.
    + rewrite Hplace.
      destruct (Hooks_selectSquare_cases (place b square) square)
        as [[_ Hsame]|(_ & Hfree & _)]; [done|].
      by rewrite place_occupied in Hfree.
  - destruct (AdvancedState_selectSquare_cases b square) as [[_ Hsame]|[_ Hplace]].
    + by rewrite !Hsame.
    + rewrite Hplace.
      destruct (AdvancedState_selectSquare_cases (place b square) square)
        as [[_ Hsame]|[Hfree _]]; [done|].
      by rewrite place_occupied in Hfree.
Qed.

Section hooks_and_reducer.
Implicit Types (st : state) (s : snapshot) (b : board) (square : Z).

(** The board that shows the last entry of a state. *)
Lemma Hooks_follows_reducer st s square st' :
  stepNumber st = (Z.of_nat (length (history st)) - 1)%Z →
  last (history st) = Some s →
  is_array_index square = true →
  boardReducer st (SELECT_SQUARE square) = Return st' →
  ∃ s', last (history st') = Some s' ∧
    stepNumber st' = (Z.of_nat (length (history st')) - 1)%Z ∧
    Hooks.selectSquare {| board_squares := squares s; board_xIsNext := xIsNext st |} square
      = {| board_squares := squares s'; board_xIsNext := xIsNext st' |}.
Proof.
  intros Hend Hlast Hi Hstep.
  destruct (boardReducer_at_end st square st' Hend Hstep) as [_ Hend'].
  assert (length (history st) ≠ 0) as Hne.
  { intros Hnil%nil_length_inv. by rewrite Hnil in Hlast. }
  assert (cursor_in_range st) as Hc by (unfold cursor_in_range; lia).
  apply boardReducer_returned in Hstep as (current & Hcur & Hg & ->); [|done].
  assert (current = s) as ->.
  { rewrite last_lookup in Hlast.
    replace (Z.to_nat (stepNumber st)) with (pred (length (history st))) in Hcur by lia.
    congruence. }
  exists (next_snapshot st s square). cbn [history].
  split_and!; [by rewrite last_snoc|done|].
  rewrite guard_or, arr_get_spread in Hg by done.
  apply orb_false_iff in Hg as [Hwin Hfree].
  destruct (Hooks_selectSquare_cases
              {| board_squares := squares s; board_xIsNext := xIsNext st |} square)
    as [[Hg' _]|(_ & _ & ->)].
  - simpl in Hg'. by rewrite Hwin, Hfree in Hg'.
  - unfold place, next_snapshot. simpl. f_equal. symmetry. by apply xIsNext_succ.
Qed.

End hooks_and_reducer.

(** X11. The hooks [Board] and the reducer agree. For every run of moves on
    array indices that the reducer accepts one after the other from the
    initial state, the hooks [Board], clicked on the same squares from its
    own initial state, holds the squares of the last entry of the history,
    and its [xIsNext] is the one the reducer derives from the cursor. *)
Theorem Hooks_board_is_last_entry (moves : list Z) (st : state) :
  Forall (λ square, is_array_index square = true) moves →
  play initialState moves = Some st →
  ∃ s, last (history st) = Some s ∧
    foldl Hooks.selectSquare
      {| board_squares := Array_fill 9 Null; board_xIsNext := true |} moves
    = {| board_squares := squares s; board_xIsNext := xIsNext st |}.
Proof.
  intros Hmoves.
  change {| board_squares := Array_fill 9 Null; board_xIsNext := true |}
    with {| board_squares := squares {| squares := Array_fill 9 Null |};
            board_xIsNext := xIsNext initialState |}.
  assert (stepNumber initialState
          = (Z.of_nat (length (history initialState)) - 1)%Z) as Hend by done.
  assert (last (history initialState) = Some {| squares := Array_fill 9 Null |})
    as Hlast by done.
  revert Hend Hlast. generalize {| squares := Array_fill 9 Null |}.
  generalize initialState.
  induction Hmoves as [|square moves Hi _ IH]; intros st0 s0 Hend Hlast Hplay;
    simpl in Hplay.
  - injection Hplay as <-. by exists s0.
  - destruct (boardReducer st0 (SELECT_SQUARE square)) as [st1| |] eqn:Hstep; try done.
    destruct (Hooks_follows_reducer st0 s0 square st1 Hend Hlast Hi Hstep)
      as (s1 & Hlast1 & Hend1 & Hb1).
    simpl. rewrite Hb1. by apply IH.
Qed.

Lemma Hooks_board_is_last_entry_witness :
  let st := {| history := top_row_game; stepNumber := 5 |} in
  ∃ s, last (history st) = Some s ∧
    foldl Hooks.selectSquare
      {| board_squares := Array_fill 9 Null; board_xIsNext := true |} [0; 4; 1; 8; 2]%Z
    = {| board_squares := squares s; board_xIsNext := xIsNext st |}.
Proof.
  apply (Hooks_board_is_last_entry [0; 4; 1; 8; 2]%Z
           {| history := top_row_game; stepNumber := 5 |}).
  - repeat constructor.
  - reflexivity.
Defined.

Section reached_boards.
Implicit Types (b : board) (square : Z).

Lemma board_invariant_initial :
  board_invariant {| board_squares := Array_fill 9 Null; board_xIsNext := true |}.
Proof. split; [apply is_board_empty|done]. Qed.

(** Taking a free cell keeps the invariant and adds one mark. *)
Lemma board_invariant_place b square :
  board_invariant b → (0 ≤ square ≤ 8)%Z →
  truthy (arr_get (board_squares b) square) = false →
  board_invariant (place b square) ∧
  marks (board_squares (place b square)) = S (marks (board_squares b)) ∧
  ∀ k, k ≠ square → (0 ≤ k ≤ 8)%Z →
       arr_get (board_squares (place b square)) k = arr_get (board_squares b) k.
Proof.
  intros [Hboard Hturn] Hsq Hfree.
  assert (spread (board_squares b) = board_squares b) as Hspread
    by apply spread_board, Hboard.
  assert (arr_get (board_squares b) square = Null) as Hnull.
  { apply is_cell_falsy; [by apply is_board_get|done]. }
  unfold place. simpl. rewrite Hspread.
  assert (marks (arr_set (board_squares b) square (mark (board_xIsNext b)))
          = S (marks (board_squares b))) as Hmarks.
  { apply marks_set; [done..|apply truthy_mark]. }
  split_and!; [split; simpl| done |].
  - apply is_board_set; [done..|apply is_cell_mark].
  - by rewrite Hmarks, Hturn, Nat.even_succ, <-Nat.negb_even.
  - intros k Hk Hrange. apply arr_get_set_ne; [done|].
    destruct Hboard as [-> _]. lia.
Qed.

Lemma HooksBoard_clicks b square : square ∈ HooksBoard.clicks b → (0 ≤ square ≤ 8)%Z.
Proof.
  unfold HooksBoard.clicks. simpl. intros Hin.
  repeat (apply elem_of_cons in Hin as [->|Hin]; [lia|]).
  by apply elem_of_nil in Hin.
Qed.

Lemma AdvancedBoard_clicks b square : square ∈ AdvancedBoard.clicks b → (1 ≤ square ≤ 8)%Z.
Proof.
  unfold AdvancedBoard.clicks. simpl. intros Hin.
  repeat (apply elem_of_cons in Hin as [->|Hin]; [lia|]).
  by apply elem_of_nil in Hin.
Qed.

(** On the boards that the hooks [Board] reaches, a winner is who moved
    last. *)
Lemma HooksBoard_reached_invariant b :
  HooksBoard.reached b →
  board_invariant b ∧
  (truthy (calculateWinner (board_squares b)) = true →
   calculateWinner (board_squares b) = mark (negb (board_xIsNext b))).
Proof.
  induction 1 as [|b square _ [Hinv Hwin] Hsq%HooksBoard_clicks].
  { split; [apply board_invariant_initial|done]. }
  destruct (Hooks_selectSquare_cases b square) as [[_ ->]|(Hnone & Hfree & ->)]; [done|].
  destruct (board_invariant_place b square Hinv Hsq Hfree) as (Hinv' & _ & _).
  split; [done|]. intros Hwin'. unfold place in *. simpl in *.
  rewrite spread_board in * by apply Hinv.
  rewrite negb_involutive. apply new_winner_is_mover; [apply Hinv| |done].
  by apply calculateWinner_falsy.
Qed.

Lemma AdvancedBoard_reached_invariant b :
  AdvancedBoard.reached b →
  board_invariant b ∧ arr_get (board_squares b) 0 = Null.
Proof.
  induction 1 as [|b square _ [Hinv Hzero] Hsq%AdvancedBoard_clicks].
  { split; [apply board_invariant_initial|done]. }
  destruct (AdvancedState_selectSquare_cases b square) as [[_ ->]|(Hfree & ->)]; [done|].
  destruct (board_invariant_place b square Hinv) as (Hinv' & _ & Hother); [lia|done|].
  split; [done|]. rewrite Hother; [done|lia..].
Qed.

End reached_boards.

(** X12. On every board that clicks on the hooks [Board] lead to, the squares
    are a board of nine cells, [xIsNext] is in step with the number of marks
    (X is next exactly when it is even), and the status line names as winner
    the player who moved last, says "Scratch: Cat's game" when there is no
    winner and nine marks, and names the next player otherwise. *)
Theorem HooksBoard_reached_status (b : board) :
  HooksBoard.reached b →
  is_board (board_squares b) ∧
  board_xIsNext b = Nat.even (marks (board_squares b)) ∧
  HooksBoard.status b =
    (if truthy (calculateWinner (board_squares b))
     then "Winner: " ++ (if board_xIsNext b then "O" else "X")
     else if Nat.eqb (marks (board_squares b)) 9 then "Scratch: Cat's game"
     else "Next player: " ++ (if board_xIsNext b then "X" else "O"))%string.
Proof.
  intros [[Hboard Hturn] Hwin]%HooksBoard_reached_invariant.
  split_and!; [done..|]. unfold HooksBoard.status. cbn zeta.
  destruct (truthy (calculateWinner (board_squares b))) eqn:Hw.
  - rewrite Hwin by done. by destruct (board_xIsNext b).
  - pose proof (every_truthy_marks _ Hboard) as Hfull.
    destruct (Nat.eqb_spec (marks (board_squares b)) 9) as [H9|H9].
    + by rewrite (proj2 Hfull).
    + destruct (every truthy (board_squares b)); [|done].
      destruct Hfull as [Hfull _]. by specialize (Hfull eq_refl).
Qed.

Lemma HooksBoard_reached_status_witness :
  let b := Hooks.selectSquare
             {| board_squares := Array_fill 9 Null; board_xIsNext := true |} 4 in
  is_board (board_squares b) ∧
  board_xIsNext b = Nat.even (marks (board_squares b)) ∧
  HooksBoard.status b =
    (if truthy (calculateWinner (board_squares b))
     then "Winner: " ++ (if board_xIsNext b then "O" else "X")
     else if Nat.eqb (marks (board_squares b)) 9 then "Scratch: Cat's game"
     else "Next player: " ++ (if board_xIsNext b then "X" else "O"))%string.
Proof.
  apply (HooksBoard_reached_status
           (Hooks.selectSquare
              {| board_squares := Array_fill 9 Null; board_xIsNext := true |} 4)).
  apply HooksBoard.reached_click; [apply HooksBoard.reached_initial|].
  vm_compute. repeat constructor.
Defined.

(** X13. On every board that clicks on the "Advanced State" [Board] lead to,
    the squares are a board of nine cells and [xIsNext] is in step with the
    number of marks, but cell 0 is never taken, since no button passes 0 on;
    and of the nine buttons the three of the first column show cell 0, which
    is empty, and two show the missing cells 10 and 15: marks in the cells 1,
    3, 7 and 8 are never shown. *)
Theorem AdvancedBoard_reached_view (b : board) :
  AdvancedBoard.reached b →
  let squares := board_squares b in
  is_board squares ∧
  board_xIsNext b = Nat.even (marks squares) ∧
  arr_get squares 0 = Null ∧
  AdvancedBoard.board_rows squares =
    [ [ {| shows := Null; onClick := 1%Z |};
        {| shows := arr_get squares 2; onClick := 3%Z |};
        {| shows := arr_get squares 5; onClick := 6%Z |} ];
      [ {| shows := Null; onClick := 2%Z |};
        {| shows := arr_get squares 4; onClick := 4%Z |};
        {| shows := Undefined; onClick := 7%Z |} ];
      [ {| shows := Null; onClick := 3%Z |};
        {| shows := arr_get squares 6; onClick := 5%Z |};
        {| shows := Undefined; onClick := 8%Z |} ] ].
Proof.
  intros [[Hboard Hturn] Hzero]%AdvancedBoard_reached_invariant. cbn zeta.
  split_and!; [done..|].
  unfold AdvancedBoard.board_rows. cbn -[arr_get].
  repeat match goal with
         | |- context [(Zpos ?x * ?y)%Z] =>
             let v := eval vm_compute in (Zpos x * y)%Z in change (Zpos x * y)%Z with v
         | |- context [(Zpos ?x + ?y)%Z] =>
             let v := eval vm_compute in (Zpos x + y)%Z in change (Zpos x + y)%Z with v
         end.
  rewrite Hzero.
  assert (∀ k, (9 ≤ k)%Z → arr_get (board_squares b) k = Undefined) as Hmissing.
  { intros k Hk. rewrite <-(spread_board (board_squares b)) by apply Hboard.
    apply arr_get_spread_beyond. destruct Hboard as [-> _]. lia. }
  by rewrite (Hmissing 10%Z), (Hmissing 15%Z) by lia.
Qed.

Lemma AdvancedBoard_reached_view_witness :
  let b := AdvancedState.selectSquare
             {| board_squares := Array_fill 9 Null; board_xIsNext := true |} 1 in
  let squares := board_squares b in
  is_board squares ∧
  board_xIsNext b = Nat.even (marks squares) ∧
  arr_get squares 0 = Null ∧
  AdvancedBoard.board_rows squares =
    [ [ {| shows := Null; onClick := 1%Z |};
        {| shows := arr_get squares 2; onClick := 3%Z |};
        {| shows := arr_get squares 5; onClick := 6%Z |} ];
      [ {| shows := Null; onClick := 2%Z |};
        {| shows := arr_get squares 4; onClick := 4%Z |};
        {| shows := Undefined; onClick := 7%Z |} ];
      [ {| shows := Null; onClick := 3%Z |};
        {| shows := arr_get squares 6; onClick := 5%Z |};
        {| shows := Undefined; onClick := 8%Z |} ] ].
Proof.
  apply (AdvancedBoard_reached_view
           (AdvancedState.selectSquare
              {| board_squares := Array_fill 9 Null; board_xIsNext := true |} 1)).
  apply AdvancedBoard.reached_click; [apply AdvancedBoard.reached_initial|].
  vm_compute. repeat constructor.
Defined.

(** X14. On every board of nine cells, the status line of the "Advanced
    State" [Board] names the next player, its first two assignments being
    overwritten by the third; so it reads as the status line of the hooks
    [Board] exactly on the boards that have no winner and an empty cell
    left. *)
Theorem renderStatus_in_progress_only (b : board) :
  is_board (board_squares b) →
  AdvancedBoard.renderStatus b =
    Some ("Next player: " ++ (if board_xIsNext b then "X" else "O"))%string ∧
  (AdvancedBoard.renderStatus b = Some (HooksBoard.status b) ↔
     truthy (calculateWinner (board_squares b)) = false ∧
     marks (board_squares b) < 9).
Proof.
  intros Hboard. split; [done|].
  pose proof (every_truthy_marks _ Hboard) as Hfull.
  pose proof (marks_bound (board_squares b)) as Hbound.
  destruct Hboard as (Hlen & _ & _). rewrite Hlen in Hbound.
  unfold AdvancedBoard.renderStatus, HooksBoard.status. cbn zeta.
  destruct (truthy (calculateWinner (board_squares b))).
  { split; [|by intros []]. by intros [= ?]. }
  destruct (every truthy (board_squares b)).
  { destruct Hfull as [Hfull _]. specialize (Hfull eq_refl).
    split; [|lia]. by destruct (board_xIsNext b). }
  split; [|done]. intros _. split; [done|].
  destruct (decide (marks (board_squares b) = 9)) as [H9|]; [|lia].
  by apply Hfull in H9.
Qed.

Lemma renderStatus_in_progress_only_witness :
  AdvancedBoard.renderStatus decided_board = Some "Next player: O"%string ∧
  (AdvancedBoard.renderStatus decided_board = Some (HooksBoard.status decided_board) ↔
     truthy (calculateWinner (board_squares decided_board)) = false ∧
     marks (board_squares decided_board) < 9).
Proof.
  apply (renderStatus_in_progress_only decided_board).
  split_and!; [reflexivity..|].
  simpl. repeat constructor; (by left) || (right; by left) || (right; by right).
Defined.

(** ** The state handed to a call is left as it was *)

(** X15. No call of the reducer writes to an object that was in the store:
    whether it returns a state, returns nothing or throws, every object that
    existed before the call is unchanged after it, so the state that was
    handed in, with its history and every snapshot, reads back as before. *)
Theorem boardReducer_keeps_its_argument
    (h : Heap.heap) (st : Heap.state) (a : action.t) (s : state) :
  state_at h st = Some s →
  preserved h (Heap.boardReducer st a h).2 ∧
  state_at (Heap.boardReducer st a h).2 st = Some s.
Proof.
  intros Hs. pose proof (boardReducer_preserves st a h) as Hp.
  split; [done|]. unfold state_at in *.
  destruct (history_at h (Heap.history st)) as [hist|] eqn:Hh; [|done].
  by rewrite (history_at_preserved _ _ _ _ Hp Hh).
Qed.

Lemma boardReducer_keeps_its_argument_witness :
  let st := {| Heap.history := 4; Heap.stepNumber := 1 |} in
  let s := {| history := take 2 top_row_game; stepNumber := 1 |} in
  preserved example_store (Heap.boardReducer st (SELECT_SQUARE 4) example_store).2 ∧
  state_at (Heap.boardReducer st (SELECT_SQUARE 4) example_store).2 st = Some s.
Proof.
  apply (boardReducer_keeps_its_argument example_store
           {| Heap.history := 4; Heap.stepNumber := 1 |} (SELECT_SQUARE 4)
           {| history := take 2 top_row_game; stepNumber := 1 |}).
  reflexivity.
Defined.

(** X16. The [selectSquare] of the "Advanced State" board works on a copy:
    on a store in which its squares read back as a board, it throws nothing,
    changes no object that was in the store, so that the board it was given
    reads back as before, and the board it returns reads back as the one
    computed on values. *)
Theorem selectSquare_works_on_a_copy
    (h : Heap.heap) (b : Heap.board) (square : Z) (v : board) :
  board_at h b = Some v →
  ∃ b' h', Heap.selectSquare b square h = (Heap.Val b', h') ∧
           preserved h h' ∧
           board_at h' b = Some v ∧
           board_at h' b' = Some (AdvancedState.selectSquare v square).
Proof.
  intros Hv.
  destruct (Heap_selectSquare_agrees h b square v Hv) as (b' & h' & Hrun & Hp & Hb').
  exists b', h'. split_and!; [done..| |done].
  unfold board_at in *.
  destruct (cells_at h (Heap.board_squares b)) as [a|] eqn:Ha; [|done].
  by rewrite (cells_at_preserved _ _ _ _ Hp Ha).
Qed.

Lemma selectSquare_works_on_a_copy_witness :
  let b := {| Heap.board_squares := 2; Heap.board_xIsNext := false |} in
  let v := {| board_squares :=
                squares (board_of [markX; Null; Null; Null; Null; Null; Null; Null; Null]);
              board_xIsNext := false |} in
  ∃ b' h', Heap.selectSquare b 4 example_store = (Heap.Val b', h') ∧
           preserved example_store h' ∧
           board_at h' b = Some v ∧
           board_at h' b' = Some (AdvancedState.selectSquare v 4).
Proof.
  apply (selectSquare_works_on_a_copy example_store
           {| Heap.board_squares := 2; Heap.board_xIsNext := false |} 4).
  reflexivity.
Defined.

(** X17. Time travel. Jumping to an entry [i] of the history and back to the
    old cursor restores the state; jumping to entry [i] and then making a
    move that is accepted abandons the entries after [i], however many there
    were: the new history is the entries 0 to [i] followed by one new
    snapshot, and the cursor is on it. *)
Theorem jump_then_move (st st1 st2 : state) (i : nat) (square : Z) :
  i < length (history st) →
  boardReducer st (SET_STEPNUMBER (Z.of_nat i)) = Return st1 →
  boardReducer st1 (SELECT_SQUARE square) = Return st2 →
  boardReducer st1 (SET_STEPNUMBER (stepNumber st)) = Return st ∧
  length (history st2) = i + 2 ∧
  take (S i) (history st2) = take (S i) (history st) ∧
  stepNumber st2 = Z.of_nat (i + 1).
Proof.
  intros Hi [= <-] Hmove.
  assert (cursor_in_range {| history := history st; stepNumber := Z.of_nat i |}) as Hc.
  { unfold cursor_in_range. simpl. lia. }
  apply boardReducer_returned in Hmove as (current & _ & _ & ->); [|done].
  cbn [history stepNumber]. rewrite Nat2Z.id.
  assert (length (take (S i) (history st)) = S i) as Hlen by (rewrite length_take; lia).
  split_and!.
  - by destruct st.
  - rewrite length_app, Hlen. simpl. lia.
  - by rewrite take_app_length'.
  - lia.
Qed.

Lemma jump_then_move_witness :
  let st := {| history := top_row_game; stepNumber := 5 |} in
  let st1 := {| history := top_row_game; stepNumber := 1 |} in
  let st2 := {| history := take 2 top_row_game
                             ++ [board_of [markX; Null; Null; Null; Null; Null; markO; Null; Null]];
                stepNumber := 2 |} in
  boardReducer st1 (SET_STEPNUMBER (stepNumber st)) = Return st ∧
  length (history st2) = 1 + 2 ∧
  take (S 1) (history st2) = take (S 1) (history st) ∧
  stepNumber st2 = Z.of_nat (1 + 1).
Proof.
  apply (jump_then_move
           {| history := top_row_game; stepNumber := 5 |}
           {| history := top_row_game; stepNumber := 1 |}
           {| history := take 2 top_row_game
                           ++ [board_of [markX; Null; Null; Null; Null; Null; markO; Null; Null]];
              stepNumber := 2 |} 1 6).
  - simpl. lia.
  - reflexivity.
  - reflexivity.
Defined.
